(** * mxflib: KLV objects and partitions

    A shallow embedding of [mxflib/klvobject.h] and [mxflib/partition.h].
    Machine integers are integers of [Z] with the conversions of the C++
    source written out; records follow the classes field by field. *)

From Stdlib Require Import ZArith List Lia Bool String.
From stdpp Require Import base option list gmap.

Local Open Scope Z_scope.

(** ** Machine integers *)

Module Ints.

(** Modelled from the spec: the typedefs of [Position] and [Length] are
    not among the sources; positions are 64-bit signed and lengths go
    up to 2^63 - 1, so both are [Int64].  Conversion of any integer to
    [Int64] keeps the low 64 bits, read as two's complement. *)
Definition to_Int64 (z : Z) : Z := (z + 2 ^ 63) mod 2 ^ 64 - 2 ^ 63.

Definition is_Int64 (z : Z) : Prop := - 2 ^ 63 <= z < 2 ^ 63.

(** [size_t] on a platform where [sizeof(size_t) = w]: conversion keeps
    the low [8 * w] bits, unsigned. *)
Definition size_t_modulus (w : Z) : Z := 2 ^ (8 * w).

Definition to_size_t (w : Z) (z : Z) : Z := z mod size_t_modulus w.

Definition is_size_t (w : Z) (z : Z) : Prop := 0 <= z < size_t_modulus w.

(** [static_cast<size_t>(-1)], the "all available bytes" default. *)
Definition size_t_minus_1 (w : Z) : Z := to_size_t w (-1).

Definition is_UInt8 (z : Z) : Prop := 0 <= z < 256.

End Ints.

(** ** KLV objects (klvobject.h) *)

Module KLV.
Import Ints.

(** Modelled from the spec: the file cursor ([MXFFile] is not among the
    sources), as far as the inline methods read it: its identity and
    the position [Tell()] reports. *)
Record MXFFile : Type := mkFile {
  FileName : string;
  Tell : Z
}.

(** [SmartPtr<MXFFile>]; [None] is the null pointer. *)
Definition MXFFilePtr : Type := option MXFFile.

(** A universal label: 16 bytes. *)
Definition UL : Type := list Z.
Definition ULPtr : Type := option UL.

(** Modelled from the spec: the materialised data chunk ([DataChunk] is
    not among the sources), a buffer of bytes whose [Size], a [size_t],
    is the number of bytes it holds. *)
Definition DataChunk : Type := list Z.

Definition Size (d : DataChunk) : Z := Z.of_nat (length d).

(** A read handler is only stored by the methods below. *)
Definition KLVReadHandlerPtr : Type := option nat.

(** [KLVObject::KLVInfo] *)
Record KLVInfo : Type := mkInfo {
  File : MXFFilePtr;
  Offset : Z;
  OuterLength : Z;
  KLSize : Z;
  Valid : bool
}.

(** [KLVInfo::KLVInfo()] *)
Definition KLVInfo_init : KLVInfo :=
  {| File := None; Offset := -1; OuterLength := 0; KLSize := -1; Valid := false |}.

(** [KLVInfo::operator=]: the five fields of [RHS], one by one. *)
Definition KLVInfo_assign (_LHS RHS : KLVInfo) : KLVInfo :=
  {| File := File RHS;
     Offset := Offset RHS;
     OuterLength := OuterLength RHS;
     KLSize := KLSize RHS;
     Valid := Valid RHS |}.

(** [class KLVObject] *)
Record KLVObject : Type := mkKLV {
  Source : KLVInfo;
  Dest : KLVInfo;
  TheUL : ULPtr;
  ValueLength : Z;
  Data : DataChunk;
  DataBase : Z;
  ReadHandler : KLVReadHandlerPtr
}.

Definition with_Source (k : KLVObject) (s : KLVInfo) : KLVObject :=
  mkKLV s (Dest k) (TheUL k) (ValueLength k) (Data k) (DataBase k) (ReadHandler k).

Definition with_Dest (k : KLVObject) (d : KLVInfo) : KLVObject :=
  mkKLV (Source k) d (TheUL k) (ValueLength k) (Data k) (DataBase k) (ReadHandler k).

(** [SetSource(File, Location)] for a pointer to a file.  The source
    dereferences [File] when [Location < 0], so the argument here is a
    file; the null pointer is the matter of [KLVMore.SetSourcePtr]. *)
Definition SetSource (k : KLVObject) (F : MXFFile) (Location : Z) : KLVObject :=
  let Source' :=
    {| File := Some F;
       Offset := if Location <? 0 then Tell F else Location;
       OuterLength := OuterLength (Source k);
       KLSize := KLSize (Source k);
       Valid := true |} in
  let k' := with_Source k Source' in
  if negb (Valid (Dest k')) then with_Dest k' (KLVInfo_assign (Dest k') (Source k'))
  else k'.

(** [SetDestination(File, Location)] for a pointer to a file; the null
    pointer is the matter of [KLVMore.SetDestinationPtr]. *)
Definition SetDestination (k : KLVObject) (F : MXFFile) (Location : Z) : KLVObject :=
  with_Dest k
    {| File := Some F;
       Offset := if Location <? 0 then Tell F else Location;
       OuterLength := OuterLength (Dest k);
       KLSize := KLSize (Dest k);
       Valid := true |}.

Definition GetUL (k : KLVObject) : ULPtr := TheUL k.

Definition SetUL (k : KLVObject) (NewUL : ULPtr) : KLVObject :=
  mkKLV (Source k) (Dest k) NewUL (ValueLength k) (Data k) (DataBase k) (ReadHandler k).

Definition GetLocation (k : KLVObject) : Z := Offset (Source k).

(** [GetKLSize]: [Source.KLSize >= 0 ? Source.KLSize : Dest.KLSize] *)
Definition GetKLSize (k : KLVObject) : Z :=
  if KLSize (Source k) >=? 0 then KLSize (Source k) else KLSize (Dest k).

(** [SetKLSize]: [Dest.KLSize = NewKLSize] *)
Definition SetKLSize (k : KLVObject) (NewKLSize : Z) : KLVObject :=
  with_Dest k
    {| File := File (Dest k);
       Offset := Offset (Dest k);
       OuterLength := OuterLength (Dest k);
       KLSize := NewKLSize;
       Valid := Valid (Dest k) |}.

Definition GetDataBase (k : KLVObject) : Z := DataBase k.

(** [SetDataBase]: [DataBase = NewBase] *)
Definition SetDataBase (k : KLVObject) (NewBase : Z) : KLVObject :=
  mkKLV (Source k) (Dest k) (TheUL k) (ValueLength k) (Data k) NewBase (ReadHandler k).

Definition SetReadHandler (k : KLVObject) (Handler : KLVReadHandlerPtr) : KLVObject :=
  mkKLV (Source k) (Dest k) (TheUL k) (ValueLength k) (Data k) (DataBase k) Handler.

Definition GetLength (k : KLVObject) : Z := ValueLength k.

(** [SetLength]: [ValueLength = Dest.OuterLength = Source.OuterLength = NewLength] *)
Definition SetLength (k : KLVObject) (NewLength : Z) : KLVObject :=
  mkKLV
    {| File := File (Source k); Offset := Offset (Source k);
       OuterLength := NewLength;
       KLSize := KLSize (Source k); Valid := Valid (Source k) |}
    {| File := File (Dest k); Offset := Offset (Dest k);
       OuterLength := NewLength;
       KLSize := KLSize (Dest k); Valid := Valid (Dest k) |}
    (TheUL k) NewLength (Data k) (DataBase k) (ReadHandler k).

Definition GetData (k : KLVObject) : DataChunk := Data k.

(** *** Writing the chunk *)

(** What [WriteDataFromTo] does with its arguments: either it reports
    the 4 GByte error and returns 0, or it hands
    [(&Data.Data[Start], Offset, count)] to [Base_WriteDataTo], whose
    result it returns. *)
Inductive WriteOutcome : Type :=
| ChunkTooLarge
| BaseWrite (Start : Z) (Offset : Z) (Count : Z).

Section Platform.

(** [sizeof(size_t)] of the platform the library is built for. *)
Variable sizeof_size_t : Z.

(** The value of [BytesToWrite] when the sanity check is reached.
    [Data.Size - Start] is an [Int64] after the usual conversions;
    [(Length)Size] and [BytesToWrite = Size] convert a [size_t] to
    [Int64]. *)
Definition BytesToWrite (k : KLVObject) (Start : Z) (Size_ : Z) : Z :=
  let BytesToWrite0 := to_Int64 (Size (Data k) - Start) in
  if (Size_ >? 0) && (to_Int64 Size_ <? BytesToWrite0)
  then to_Int64 Size_
  else BytesToWrite0.

(** [WriteDataFromTo(Offset, Start, Size)] *)
Definition WriteDataFromTo (k : KLVObject) (Offset_ Start Size_ : Z) : WriteOutcome :=
  let n := BytesToWrite k Start Size_ in
  if (sizeof_size_t <? 8) && (n >? 4294967295)
  then ChunkTooLarge
  else BaseWrite Start Offset_ (to_size_t sizeof_size_t n).

Definition WriteData (k : KLVObject) (Size_ : Z) : WriteOutcome :=
  WriteDataFromTo k 0 0 Size_.

Definition WriteDataFrom (k : KLVObject) (Start Size_ : Z) : WriteOutcome :=
  WriteDataFromTo k 0 Start Size_.

Definition WriteDataTo (k : KLVObject) (Offset_ Size_ : Z) : WriteOutcome :=
  WriteDataFromTo k Offset_ 0 Size_.

End Platform.

(** The bytes a call [Base_WriteDataTo(&Data.Data[Start], _, Count)]
    reads: [Count] bytes from index [Start], when they lie inside the
    chunk; otherwise the call reads outside the buffer. *)
Definition passed_bytes (d : DataChunk) (w : WriteOutcome) : option (list Z) :=
  match w with
  | ChunkTooLarge => None
  | BaseWrite Start _ Count =>
      if (0 <=? Start) && (0 <=? Count) && (Start + Count <=? Size d)
      then Some (take (Z.to_nat Count) (drop (Z.to_nat Start) d))
      else None
  end.

(** *** The chunk invariant and sequences of operations *)

(** [0 <= DataBase] and [DataBase + Data.Size <= ValueLength]. *)
Definition chunk_invariant (k : KLVObject) : Prop :=
  0 <= DataBase k /\ DataBase k + Size (Data k) <= ValueLength k.

Definition chunk_invariantb (k : KLVObject) : bool :=
  (0 <=? DataBase k) && (DataBase k + Size (Data k) <=? ValueLength k).

(** The state-changing inline methods of the class. *)
Inductive Op : Type :=
| OpSetSource (F : MXFFile) (Location : Z)
| OpSetDestination (F : MXFFile) (Location : Z)
| OpSetUL (NewUL : ULPtr)
| OpSetKLSize (NewKLSize : Z)
| OpSetDataBase (NewBase : Z)
| OpSetReadHandler (Handler : KLVReadHandlerPtr)
| OpSetLength (NewLength : Z).

Definition step (k : KLVObject) (o : Op) : KLVObject :=
  match o with
  | OpSetSource F L => SetSource k F L
  | OpSetDestination F L => SetDestination k F L
  | OpSetUL u => SetUL k u
  | OpSetKLSize n => SetKLSize k n
  | OpSetDataBase b => SetDataBase k b
  | OpSetReadHandler h => SetReadHandler k h
  | OpSetLength l => SetLength k l
  end.

Definition run (k : KLVObject) (ops : list Op) : KLVObject := fold_left step ops k.

(** An operation keeps the chunk inside the value field: nothing to
    check except for the two setters that move the window or its
    bound. *)
Definition in_bounds (k : KLVObject) (o : Op) : Prop :=
  match o with
  | OpSetDataBase b => 0 <= b /\ b + Size (Data k) <= ValueLength k
  | OpSetLength l => DataBase k + Size (Data k) <= l
  | _ => True
  end.

(** *** Reading the value into the chunk *)

(** Modelled from the spec: [Base_ReadDataFrom(Offset, Size)], whose
    body is not among the sources.  Section 4.3: it materialises up to
    [Size] bytes starting at [Offset] within the value field, to the end
    of the value for [(size_t)-1]; the chunk is replaced in full;
    afterwards [DataBase = Offset] and the chunk holds the bytes that
    were read, whose count is returned; a request for more than a
    [size_t] can express fails, returning 0 with the cursor as it was.
    [src] is the value field as the source, read handler or file,
    serves it from the first value byte on; it may end early. *)
Definition Base_ReadDataFrom (sizeof_size_t : Z) (k : KLVObject) (src : list Z)
    (Offset_ Size_ : Z) : Z * KLVObject :=
  let to_end := ValueLength k - Offset_ in
  let BytesToRead :=
    if Size_ =? size_t_minus_1 sizeof_size_t then to_end else Z.min Size_ to_end in
  if size_t_modulus sizeof_size_t <=? BytesToRead then (0, k)
  else
    let chunk := take (Z.to_nat BytesToRead) (drop (Z.to_nat Offset_) src) in
    (Size chunk,
     mkKLV (Source k) (Dest k) (TheUL k) (ValueLength k) chunk Offset_ (ReadHandler k)).

(** [ReadData(Size)]: [Base_ReadDataFrom(0, Size)] *)
Definition ReadData (sizeof_size_t : Z) (k : KLVObject) (src : list Z) (Size_ : Z)
  : Z * KLVObject :=
  Base_ReadDataFrom sizeof_size_t k src 0 Size_.

(** [ReadDataFrom(Offset, Size)]: [Base_ReadDataFrom(Offset, Size)] *)
Definition ReadDataFrom (sizeof_size_t : Z) (k : KLVObject) (src : list Z)
    (Offset_ Size_ : Z) : Z * KLVObject :=
  Base_ReadDataFrom sizeof_size_t k src Offset_ Size_.

(** The public operations that change a cursor: the inline setters and
    the two reads, each read with what its source serves. *)
Inductive Call : Type :=
| CallSetter (o : Op)
| CallReadData (src : list Z) (Size_ : Z)
| CallReadDataFrom (src : list Z) (Offset_ Size_ : Z).

Definition perform (sizeof_size_t : Z) (k : KLVObject) (c : Call) : KLVObject :=
  match c with
  | CallSetter o => step k o
  | CallReadData src sz => snd (ReadData sizeof_size_t k src sz)
  | CallReadDataFrom src off sz => snd (ReadDataFrom sizeof_size_t k src off sz)
  end.

Definition perform_all (sizeof_size_t : Z) (k : KLVObject) (cs : list Call) : KLVObject :=
  fold_left (perform sizeof_size_t) cs k.

(** The arguments a call may take on cursor [k]: a read from an offset
    of the value field, [SetDataBase] and [SetLength] within the bounds
    of [in_bounds], anything for the rest. *)
Definition call_in_bounds (k : KLVObject) (c : Call) : Prop :=
  match c with
  | CallSetter o => in_bounds k o
  | CallReadData _ _ => True
  | CallReadDataFrom _ off _ => 0 <= off <= ValueLength k
  end.

Fixpoint calls_in_bounds (sizeof_size_t : Z) (k : KLVObject) (cs : list Call) : Prop :=
  match cs with
  | [] => True
  | c :: cs' =>
      call_in_bounds k c /\ calls_in_bounds sizeof_size_t (perform sizeof_size_t k c) cs'
  end.

(** A cursor holding the four bytes 1 2 3 4 of a 4-byte value. *)
Definition four_bytes : KLVObject :=
  mkKLV KLVInfo_init KLVInfo_init None 4 [1; 2; 3; 4] 0 None.

(** A cursor whose KL was read from a file as 20 bytes. *)
Definition read_kl_20 : KLVObject :=
  mkKLV (mkInfo (Some (mkFile "in.mxf" 20)) 0 4 20 true)
        (mkInfo (Some (mkFile "in.mxf" 20)) 0 4 20 true)
        None 4 [1; 2; 3; 4] 0 None.

(** The bytes 10, 11, ... a source serves for a value. *)
Definition served : list Z := [10; 11; 12; 13; 14; 15; 16; 17].

End KLV.

(** ** Partitions (partition.h) *)

Module Partition.

(** Messages of the global sinks [warning(...)] and [error(...)], and the
    two diagnostics of reference resolution. *)
Inductive Diagnostic : Type :=
| Warning (msg : string)
| Error (msg : string)
| DanglingWeakRef (u : N)
| DanglingStrongRef (u : N).

(** A UUID: 16 bytes compared bytewise, held as the number they spell. *)
Abbreviation UUID := N (only parsing).

(** [MDObjectPtr]: objects are told apart by identity, not by content;
    the sets of a partition are numbered in the order they are read. *)
Abbreviation MDObjectPtr := nat (only parsing).

Inductive RefKind : Type := StrongRef | WeakRef.

#[export] Instance RefKind_eq_dec : EqDecision RefKind.
Proof. solve_decision. Defined.

(** Modelled from the spec: the metadata object class (mdobject.h is not
    among the sources).  A parsed set has a UL, an optional InstanceUID
    and, in order, its reference properties, each strong or weak and
    carrying the UUID of its target. *)
Record MDSet : Type := mkSet {
  SetUL : list Z;
  InstanceUID : option UUID;
  Refs : list (RefKind * UUID)
}.

(** A reference property of an object: the [(MDObject*, slot)] of the
    spec, with the kind the property's type declares. *)
Record RefSlot : Type := mkSlot {
  owner : MDObjectPtr;
  slot : nat;
  kind : RefKind
}.

#[export] Instance RefSlot_eq_dec : EqDecision RefSlot.
Proof. solve_decision. Defined.

(** A primer: local tags and the ULs they stand for. *)
Definition Primer : Type := list (Z * list Z).

(** [class Partition].  [Links] is the link state of the partition's
    metadata objects (the target each resolved reference property points
    to); [PackLocation] is the file position of the partition pack held
    by the inherited [Object]. *)
Record Partition : Type := mkPartition {
  PartitionPrimer : option Primer;
  AllMetadata : list MDObjectPtr;
  TopLevelMetadata : list MDObjectPtr;
  RefTargets : gmap UUID MDObjectPtr;
  UnmatchedRefs : list (UUID * RefSlot);
  Links : list (RefSlot * MDObjectPtr);
  PackLocation : Z;
  _BodyLocation : Z;
  _NextBodyLocation : Z
}.

(** [ClearMetadata()]; the objects go with the lists that own them. *)
Definition ClearMetadata (p : Partition) : Partition :=
  mkPartition None [] [] ∅ [] [] (PackLocation p) (_BodyLocation p) (_NextBodyLocation p).

Definition GetRefTargets (p : Partition) : gmap UUID MDObjectPtr := RefTargets p.
Definition GetUnmatchedRefs (p : Partition) : list (UUID * RefSlot) := UnmatchedRefs p.

Definition newline : string := String (Ascii.ascii_of_nat 10) EmptyString.

(** [IsMetadataComplete()]: warns and returns [false]. *)
Definition IsMetadataComplete (p : Partition) (log : list Diagnostic)
  : bool * list Diagnostic :=
  (false, log ++ [Warning ("Partition::IsMetadataComplete() not yet implemented" ++ newline)]).

(** *** Reference resolution *)

Definition with_refs (p : Partition) (all : list MDObjectPtr)
    (rt : gmap UUID MDObjectPtr) (um : list (UUID * RefSlot))
    (ln : list (RefSlot * MDObjectPtr)) : Partition :=
  mkPartition (PartitionPrimer p) all (TopLevelMetadata p) rt um ln
    (PackLocation p) (_BodyLocation p) (_NextBodyLocation p).

(** [std::map::insert]: a key that is present keeps its object. *)
Definition map_insert (u : UUID) (o : MDObjectPtr) (m : gmap UUID MDObjectPtr)
  : gmap UUID MDObjectPtr :=
  match m !! u with
  | Some _ => m
  | None => <[u := o]> m
  end.

(** Modelled from the spec: InstanceUID handling ("that UUID is inserted
    into RefTargets; any entries in UnmatchedRefs with the same UUID are
    drained and each is resolved to this object"); the body of
    [AddMetadata] is not among the sources. *)
Definition register_target (u : UUID) (o : MDObjectPtr) (p : Partition) : Partition :=
  let drained := filter (fun e => e.1 = u) (UnmatchedRefs p) in
  with_refs p (AllMetadata p)
    (map_insert u o (RefTargets p))
    (filter (fun e => e.1 <> u) (UnmatchedRefs p))
    (Links p ++ ((fun e => (e.2, o)) <$> drained)).

(** Modelled from the spec: reference registration ("the resolver looks
    it up in RefTargets: if present, the reference slot is linked
    immediately; otherwise (UUID, this_object, slot) is inserted into
    UnmatchedRefs"); the body of [ProcessChildRefs] is not among the
    sources. *)
Definition register_ref (p : Partition) (r : RefSlot * UUID) : Partition :=
  match RefTargets p !! r.2 with
  | Some t => with_refs p (AllMetadata p) (RefTargets p) (UnmatchedRefs p)
                (Links p ++ [(r.1, t)])
  | None => with_refs p (AllMetadata p) (RefTargets p)
              (UnmatchedRefs p ++ [(r.2, r.1)]) (Links p)
  end.

(** Modelled from the spec: the reference properties of object [o], in
    the order the set lists them, numbered from 0. *)
Definition slots_of (o : MDObjectPtr) (s : MDSet) : list (RefSlot * UUID) :=
  imap (fun j r => (mkSlot o j r.1, r.2)) (Refs s).

(** Modelled from the spec: [ProcessChildRefs] satisfies, or records
    as unmatched, all outgoing references of an object; its body is not
    among the sources. *)
Definition ProcessChildRefs (p : Partition) (o : MDObjectPtr) (s : MDSet) : Partition :=
  fold_left register_ref (slots_of o s) p.

(** Modelled from the spec: one parsed set joins the partition; it is
    listed in [AllMetadata], its InstanceUID is registered, then its
    references.  The body of [AddMetadata] is not among the sources. *)
Definition AddMetadata (p : Partition) (s : MDSet) : Partition :=
  let o := length (AllMetadata p) in
  let p1 := with_refs p (AllMetadata p ++ [o]) (RefTargets p) (UnmatchedRefs p) (Links p) in
  let p2 := match InstanceUID s with
            | Some u => register_target u o p1
            | None => p1
            end in
  ProcessChildRefs p2 o s.

Definition strong_link_targets (ln : list (RefSlot * MDObjectPtr)) : list MDObjectPtr :=
  snd <$> filter (fun l => kind l.1 = StrongRef) ln.

Definition dangling (e : UUID * RefSlot) : Diagnostic :=
  match kind e.2 with
  | StrongRef => DanglingStrongRef e.1
  | WeakRef => DanglingWeakRef e.1
  end.

(** Modelled from the spec: two-phase finalisation ("any UnmatchedRefs
    entry whose UUID is not in RefTargets is either retained as dangling
    with a warning or surfaced as DanglingStrongRef; top-level metadata
    is computed as the complement of the set of strong-reference targets
    within AllMetadata"). *)
Definition finalise (p : Partition) : Partition * list Diagnostic :=
  (mkPartition (PartitionPrimer p) (AllMetadata p)
     (filter (fun o => o ∉ strong_link_targets (Links p)) (AllMetadata p))
     (RefTargets p) (UnmatchedRefs p) (Links p)
     (PackLocation p) (_BodyLocation p) (_NextBodyLocation p),
   dangling <$> filter (fun e => RefTargets p !! e.1 = None) (UnmatchedRefs p)).

(** Modelled from the spec: [ReadMetadata] over the header metadata sets
    of the partition, in file order, already decoded; it reads a full set
    of header metadata, so the tables start empty.  The body of
    [ReadMetadata] is not among the sources. *)
Definition ReadMetadata (p : Partition) (sets : list MDSet) : Partition * list Diagnostic :=
  finalise (fold_left AddMetadata sets (ClearMetadata p)).

(** The object a reference to [u] resolves to: the first set of the
    partition whose InstanceUID is [u]. *)
Fixpoint target_from (n : nat) (sets : list MDSet) (u : UUID) : option MDObjectPtr :=
  match sets with
  | [] => None
  | s :: sets' =>
      if bool_decide (InstanceUID s = Some u) then Some n
      else target_from (S n) sets' u
  end.

Definition target_of (sets : list MDSet) (u : UUID) : option MDObjectPtr :=
  target_from 0 sets u.

(** [sl] is a reference property of one of [sets], and carries [u]. *)
Definition is_ref (sets : list MDSet) (sl : RefSlot) (u : UUID) : Prop :=
  exists s, sets !! owner sl = Some s /\ Refs s !! slot sl = Some (kind sl, u).

(** [o] is the target of a strong reference of the set numbered [i]. *)
Definition strong_ref_from (sets : list MDSet) (i : nat) (o : MDObjectPtr) : Prop :=
  exists j u, is_ref sets (mkSlot i j StrongRef) u /\ target_of sets u = Some o.

Definition strong_ref_fromb (sets : list MDSet) (i : nat) (o : MDObjectPtr) : bool :=
  match sets !! i with
  | Some s => existsb (fun r => bool_decide (r.1 = StrongRef)
                                && bool_decide (target_of sets r.2 = Some o)) (Refs s)
  | None => false
  end.

(** Target of a strong reference from any set of the partition. *)
Definition strong_ref_target (sets : list MDSet) (o : MDObjectPtr) : Prop :=
  exists i, strong_ref_from sets i o.

Definition strong_ref_targetb (sets : list MDSet) (o : MDObjectPtr) : bool :=
  existsb (fun i => strong_ref_fromb sets i o) (seq 0 (length sets)).

(** Target of a strong reference from some other set of the partition. *)
Definition strong_ref_target_of_other (sets : list MDSet) (o : MDObjectPtr) : Prop :=
  exists i, i <> o /\ strong_ref_from sets i o.

Definition strong_ref_target_of_otherb (sets : list MDSet) (o : MDObjectPtr) : bool :=
  existsb (fun i => negb (Nat.eqb i o) && strong_ref_fromb sets i o) (seq 0 (length sets)).

(** *** The tables read against the sets seen so far *)

(** The tables agree with a lookup [T] of targets and a collection [R]
    of registered references: [RefTargets] is [T], the unmatched
    entries are the references of [R] without target, the links are the
    references of [R] with one. *)
Definition classified (T : UUID -> option MDObjectPtr)
    (R : RefSlot -> UUID -> Prop) (p : Partition) : Prop :=
  (forall u, RefTargets p !! u = T u) /\
  (forall u sl, (u, sl) ∈ UnmatchedRefs p <-> R sl u /\ T u = None) /\
  (forall sl t, (sl, t) ∈ Links p <-> exists u, R sl u /\ T u = Some t).

(** The lookup after [u] has been registered for [o]. *)
Definition with_target (T : UUID -> option MDObjectPtr) (u : UUID) (o : MDObjectPtr)
  : UUID -> option MDObjectPtr :=
  fun v => match T v with
           | Some t => Some t
           | None => if decide (v = u) then Some o else None
           end.

(** The state reached after the sets [done]: they are numbered in
    order, and the tables are classified against them. *)
Definition resolved (done : list MDSet) (p : Partition) : Prop :=
  AllMetadata p = seq 0 (length done) /\
  classified (target_of done) (is_ref done) p.

(** A partition just constructed. *)
Definition fresh : Partition := mkPartition None [] [] ∅ [] [] 0 0 0.

End Partition.

(** ** BER lengths *)

Module BER.

(** Modelled from the spec: the outcome of decoding a BER length (the
    helper functions that read and write BER lengths are not among the
    sources; the codec follows section 4.1).  Bytes are integers in
    [0, 256). *)
Inductive Result (A : Type) : Type :=
| Ok (a : A)
| MalformedLength.

Arguments Ok {A} a.
Arguments MalformedLength {A}.

(** Modelled from the spec: the big-endian unsigned value of a byte
    string. *)
Definition be_value (bs : list Z) : Z :=
  fold_left (fun acc b => acc * 256 + b) bs 0.

(** Modelled from the spec: the [n] low-order bytes of [l], most
    significant first. *)
Fixpoint be_bytes (n : nat) (l : Z) : list Z :=
  match n with
  | O => []
  | S n' => be_bytes n' (l / 256) ++ [l mod 256]
  end.

(** Modelled from the spec: BER length decoding, absent from the
    sources.  It reads one byte [b]: below 0x80 it is the length;
    otherwise [n = b & 0x7F] must be between 1 and 8 and the next [n]
    bytes give the length, which must fit the signed 64-bit target.
    The result is the length and the number of bytes consumed. *)
Definition decode (bs : list Z) : Result (Z * Z) :=
  match bs with
  | [] => MalformedLength
  | b :: rest =>
      if b <? 128 then Ok (b, 1)
      else
        let n := Z.land b 127 in
        if (n <? 1) || (8 <? n) then MalformedLength
        else if Z.of_nat (length rest) <? n then MalformedLength
        else
          let v := be_value (take (Z.to_nat n) rest) in
          if 2 ^ 63 <=? v then MalformedLength else Ok (v, 1 + n)
  end.

(** Modelled from the spec: the bytes needed to hold [l] as an unsigned
    number (1 for 0). *)
Definition byte_count (l : Z) : Z := Z.log2 l / 8 + 1.

(** Modelled from the spec: the total width of the shortest encoding,
    one byte below 128, else the length-of-length byte and the bytes of
    the value. *)
Definition min_width (l : Z) : Z :=
  if l <? 128 then 1 else 1 + byte_count l.

(** Modelled from the spec: BER length encoding in the minimum width
    that fits, absent from the sources. *)
Definition encode_min_width (l : Z) : list Z :=
  if l <? 128 then [l]
  else (128 + byte_count l) :: be_bytes (Z.to_nat (byte_count l)) l.

(** Modelled from the spec: BER length encoding in a requested total
    width [w], padding with leading zero bytes; absent from the
    sources.  BER has widths 1 to 9; there is no encoding where the
    length does not fit the width. *)
Definition encode_fixed_width (l : Z) (w : Z) : option (list Z) :=
  if w =? 1 then (if l <? 128 then Some [l] else None)
  else if (2 <=? w) && (w <=? 9) && (l <? 256 ^ (w - 1))
       then Some ((128 + (w - 1)) :: be_bytes (Z.to_nat (w - 1)) l)
       else None.

End BER.

(** ** Sequential access to the elements of the body (partition.h) *)

Module Body.
Import Partition.

(** Modelled from the spec: the UL families the partition layer tells
    apart.  The bodies of [StartElements], [NextElement], [Skip] and
    [SkipFill] are not among the sources; they are modelled from
    section 4.7 and from the comments on their declarations. *)
Inductive ULFamily : Type :=
| PartitionPackUL | PrimerUL | HeaderSetUL | IndexUL | FillUL | EssenceUL.

(** Modelled from the spec: a KLV item of the file, with the family of
    its key, the size of its key and length, and the length of its
    value. *)
Record KLVItem : Type := mkItem {
  Family : ULFamily;
  Key : KLV.UL;
  ItemKLSize : Z;
  ItemLength : Z
}.

Definition item_size (it : KLVItem) : Z := ItemKLSize it + ItemLength it.

Definition is_fill (it : KLVItem) : bool :=
  match Family it with FillUL => true | _ => false end.

Definition is_essence (it : KLVItem) : bool :=
  match Family it with EssenceUL => true | _ => false end.

Definition is_partition_pack (it : KLVItem) : bool :=
  match Family it with PartitionPackUL => true | _ => false end.

(** Modelled from the spec: the families [SeekEssence] moves past. *)
Definition is_header (it : KLVItem) : bool :=
  match Family it with
  | PrimerUL | HeaderSetUL | IndexUL | FillUL => true
  | _ => false
  end.

(** Modelled from the spec: the file as the KLV iterator sees it, a run
    of KLV items laid end to end from position 0. *)
Record FileImage : Type := mkImage {
  Handle : KLV.MXFFile;
  Items : list KLVItem
}.

Definition total_size (l : list KLVItem) : Z :=
  fold_right (fun it acc => item_size it + acc) 0 l.

(** Modelled from the spec: the items from position [pos] on, when a KLV
    starts there; [base] is the position of the first item of [l]. *)
Fixpoint items_from (l : list KLVItem) (base pos : Z) : option (list KLVItem) :=
  match l with
  | [] => None
  | it :: l' =>
      if pos =? base then Some l
      else if pos <? base then None
      else items_from l' (base + item_size it) pos
  end.

Definition item_at (f : FileImage) (pos : Z) : option KLVItem :=
  match items_from (Items f) 0 pos with
  | Some (it :: _) => Some it
  | _ => None
  end.

(** Modelled from the spec: [Skip(start)], skip over a KLV packet.
    Position 0 stands for "no element": a file starts with a partition
    pack or a run-in, never with an essence element. *)
Definition Skip (f : FileImage) (start : Z) : Z :=
  if start =? 0 then 0
  else match item_at f start with
       | Some it => start + item_size it
       | None => 0
       end.

(** Modelled from the spec: [SkipFill(start)], skip over any KLVFill;
    does not iterate, only copes with a single KLVFill. *)
Definition SkipFill (f : FileImage) (start : Z) : Z :=
  if start =? 0 then 0
  else match item_at f start with
       | Some it => if is_fill it then start + item_size it else start
       | None => 0
       end.

(** Modelled from the spec: the position of the first KLV, from [pos]
    on, whose family is none of primer, header metadata, index table or
    fill; 0 when a partition pack or the end of the file comes first. *)
Fixpoint first_essence (l : list KLVItem) (pos : Z) : Z :=
  match l with
  | [] => 0
  | it :: l' =>
      if is_header it then first_essence l' (pos + item_size it)
      else if is_essence it then pos
      else 0
  end.

Definition with_locations (p : Partition) (body next : Z) : Partition :=
  mkPartition (PartitionPrimer p) (AllMetadata p) (TopLevelMetadata p)
    (RefTargets p) (UnmatchedRefs p) (Links p) (PackLocation p) body next.

(** Modelled from the spec: [StartElements()], go to the start of the
    body and set [_BodyLocation] and [_NextBodyLocation] to the first
    essence KLV after this partition's pack. *)
Definition StartElements (f : FileImage) (p : Partition) : bool * Partition :=
  let loc :=
    match items_from (Items f) 0 (PackLocation p) with
    | Some (pack :: rest) =>
        if is_partition_pack pack
        then first_essence rest (PackLocation p + item_size pack)
        else 0
    | _ => 0
    end in
  (negb (loc =? 0), with_locations p loc loc).

(** Modelled from the spec: the cursor made for the KLV at [pos], not
    materialising its value: source (and, by [SetSource], destination)
    set, key and length read, no value data. *)
Definition cursor_at (f : FileImage) (pos : Z) (it : KLVItem) : KLV.KLVObject :=
  let info := KLV.mkInfo (Some (Handle f)) pos (ItemLength it) (ItemKLSize it) true in
  KLV.mkKLV info info (Some (Key it)) (ItemLength it) [] 0 None.

(** Modelled from the spec: [NextElement()], go to
    [_NextBodyLocation]; the element there is returned as a cursor, and
    [_NextBodyLocation] moves past it and past one fill; a null cursor
    when a partition pack or the end of the file is there. *)
Definition NextElement (f : FileImage) (p : Partition)
  : option KLV.KLVObject * Partition :=
  let loc := _NextBodyLocation p in
  if loc =? 0 then (None, with_locations p loc 0)
  else match item_at f loc with
       | Some it =>
           if is_partition_pack it then (None, with_locations p loc 0)
           else (Some (cursor_at f loc it),
                 with_locations p loc (SkipFill f (Skip f loc)))
       | None => (None, with_locations p loc 0)
       end.

(** The cursors of [n] successive calls of [NextElement]. *)
Fixpoint elements (n : nat) (f : FileImage) (p : Partition) : list (option KLV.KLVObject) :=
  match n with
  | O => []
  | S n' => let r := NextElement f p in fst r :: elements n' f (snd r)
  end.

(** The essence region has essence items with at most one fill after
    each. *)
Fixpoint single_fill (body : list KLVItem) : bool :=
  match body with
  | [] => true
  | e :: rest =>
      is_essence e &&
      match rest with
      | fl :: rest' => if is_fill fl then single_fill rest' else single_fill rest
      | [] => true
      end
  end.

(** The cursors of the essence items of [body], which starts at
    [pos]. *)
Fixpoint essence_cursors (f : FileImage) (body : list KLVItem) (pos : Z)
  : list KLV.KLVObject :=
  match body with
  | [] => []
  | it :: rest =>
      if is_essence it
      then cursor_at f pos it :: essence_cursors f rest (pos + item_size it)
      else essence_cursors f rest (pos + item_size it)
  end.

(** Every KLV has a key and a length field, and a value of 0 bytes or
    more. *)
Definition well_sized (it : KLVItem) : Prop := 0 < ItemKLSize it /\ 0 <= ItemLength it.

(** What follows the essence region: the end of the file or a
    partition pack. *)
Definition region_end (tail : list KLVItem) : Prop :=
  match tail with
  | [] => True
  | pk :: _ => is_partition_pack pk = true
  end.

(** The items of the scenario: a pack, element A, a fill of 17 bytes,
    element B. *)
Definition the_pack : KLVItem := mkItem PartitionPackUL [6; 14; 43; 52; 2; 5] 20 100.
Definition item_A : KLVItem := mkItem EssenceUL [6; 14; 43; 52; 1; 2; 1] 20 1000.
Definition item_B : KLVItem := mkItem EssenceUL [6; 14; 43; 52; 1; 2; 2] 20 2000.
Definition fill_17 : KLVItem := mkItem FillUL [6; 14; 43; 52; 1; 1; 1; 2; 3; 1; 2; 16] 17 0.

Definition scenario_file : FileImage :=
  mkImage (KLV.mkFile "scenario.mxf" 0) [the_pack; item_A; fill_17; item_B].

End Body.

(** ** KLV objects: texts and classes of setters *)

Module KLVMore.
Import KLV.

(** [SetSource(File, Location)] on the smart pointer the method takes.
    A null [File] is stored as it is when [Location >= 0]; with
    [Location < 0] the method calls [File->Tell()] on the null pointer
    and no cursor results.  [KLV.SetSource] is the case of a pointer to
    a file. *)
Definition SetSourcePtr (k : KLVObject) (F : MXFFilePtr) (Location : Z)
  : option KLVObject :=
  match F with
  | Some f => Some (SetSource k f Location)
  | None =>
      if Location <? 0 then None
      else
        let Source' :=
          {| File := None;
             Offset := Location;
             OuterLength := OuterLength (Source k);
             KLSize := KLSize (Source k);
             Valid := true |} in
        let k' := with_Source k Source' in
        Some (if negb (Valid (Dest k'))
              then with_Dest k' (KLVInfo_assign (Dest k') (Source k'))
              else k')
  end.

(** [SetDestination(File, Location)] on the smart pointer, likewise. *)
Definition SetDestinationPtr (k : KLVObject) (F : MXFFilePtr) (Location : Z)
  : option KLVObject :=
  match F with
  | Some f => Some (SetDestination k f Location)
  | None =>
      if Location <? 0 then None
      else Some (with_Dest k
                   {| File := None;
                      Offset := Location;
                      OuterLength := OuterLength (Dest k);
                      KLSize := KLSize (Dest k);
                      Valid := true |})
  end.

Section SourceText.

(** [Int64toHexString(value, digits)] and [KLVObject::GetSource()] are
    declared outside the sources at hand; [GetSourceLocation] only
    concatenates what they return. *)
Variable Int64toHexString : Z -> Z -> string.
Variable GetSource : KLVObject -> string.

(** [GetSourceLocation()] *)
Definition GetSourceLocation (k : KLVObject) : string :=
  match File (Source k) with
  | None => "KLVObject created in memory"
  | Some _ =>
      String.append "0x"
        (String.append (Int64toHexString (GetLocation k) 8)
           (String.append " in " (GetSource k)))
  end.

End SourceText.

(** The setters that assign to a field of the destination record
    whatever its state. *)
Definition writes_Dest (o : Op) : bool :=
  match o with
  | OpSetDestination _ _ | OpSetKLSize _ | OpSetLength _ => true
  | _ => false
  end.

Definition is_SetKLSize (o : Op) : bool :=
  match o with
  | OpSetKLSize _ => true
  | _ => false
  end.

Definition is_SetLength (o : Op) : bool :=
  match o with
  | OpSetLength _ => true
  | _ => false
  end.

(** "In basic KLV types [OuterLength] is always [ValueLength]", for
    both records. *)
Definition lengths_agree (k : KLVObject) : Prop :=
  OuterLength (Source k) = ValueLength k /\ OuterLength (Dest k) = ValueLength k.

End KLVMore.

(** * Properties *)

(** ** KLV objects *)

Module KLVFacts.
Import Ints KLV.

Lemma to_Int64_id z : is_Int64 z -> to_Int64 z = z.
Proof.
  unfold is_Int64, to_Int64. intros Hz.
  rewrite Z.mod_small by lia. lia.
Qed.

Lemma to_size_t_id w z : is_size_t w z -> to_size_t w z = z.
Proof. unfold is_size_t, to_size_t. intros Hz. now apply Z.mod_small. Qed.

Lemma size_t_modulus_4 : size_t_modulus 4 = 2 ^ 32.
Proof. reflexivity. Qed.

Lemma size_t_modulus_8 : size_t_modulus 8 = 2 ^ 64.
Proof. reflexivity. Qed.

Lemma Size_nonneg d : 0 <= Size d.
Proof. unfold Size. lia. Qed.

(** The clamped count of [WriteDataFromTo] for requests that are not
    negative when read as a [Length]. *)
Lemma BytesToWrite_clamped k Start Size_ :
  Size (Data k) < 2 ^ 63 ->
  0 <= Start <= Size (Data k) ->
  0 <= Size_ < 2 ^ 63 ->
  BytesToWrite k Start Size_ =
    if Size_ =? 0 then Size (Data k) - Start
    else Z.min Size_ (Size (Data k) - Start).
Proof.
  intros HS HStart HSz. unfold BytesToWrite.
  rewrite !to_Int64_id by (unfold is_Int64; lia).
  destruct (Z.eqb_spec Size_ 0) as [-> | Hne].
  - reflexivity.
  - destruct (Z.gtb_spec Size_ 0); [| lia].
    destruct (Z.ltb_spec Size_ (Size (Data k) - Start)); simpl; lia.
Qed.

(** *** WriteDataFromTo *)

(** C1, as stated, fails for a requested size of 0: the guard
    [Size > 0] keeps the default count, so the three bytes from index 1
    to the end of the chunk are handed to the base write, where
    [min(0, S - Start)] is 0. *)
Lemma WriteDataFromTo_size_0_writes_all :
  WriteDataFromTo 8 four_bytes 0 1 0 = BaseWrite 1 0 3 /\
  passed_bytes (Data four_bytes) (WriteDataFromTo 8 four_bytes 0 1 0) = Some [2; 3; 4] /\
  WriteDataFromTo 8 four_bytes 0 1 0
    <> BaseWrite 1 0 (Z.min 0 (Size (Data four_bytes) - 1)).
Proof. repeat split; try reflexivity. vm_compute. discriminate. Qed.

(** C1 (amended): for a chunk of [S] bytes, [0 <= Start <= S], and a
    requested size that is not negative as a [Length] (every [size_t]
    of a 4-byte platform, [(size_t)-1] included; below 2^63 on an
    8-byte platform), [WriteDataFromTo] hands the base write the bytes
    [chunk[Start ..]] of count [min(Size, S - Start)], and of count
    [S - Start] when [Size = 0]. *)
Theorem WriteDataFromTo_clamped w k Offset_ Start Size_ :
  w = 4 \/ w = 8 ->
  is_size_t w (Size (Data k)) -> Size (Data k) < 2 ^ 63 ->
  0 <= Start <= Size (Data k) ->
  is_size_t w Size_ -> Size_ < 2 ^ 63 ->
  let n := if Size_ =? 0 then Size (Data k) - Start
           else Z.min Size_ (Size (Data k) - Start) in
  WriteDataFromTo w k Offset_ Start Size_ = BaseWrite Start Offset_ n /\
  passed_bytes (Data k) (WriteDataFromTo w k Offset_ Start Size_)
    = Some (take (Z.to_nat n) (drop (Z.to_nat Start) (Data k))).
Proof.
  intros Hw HS HS63 HStart HSz HSz63 n.
  assert (Hn : BytesToWrite k Start Size_ = n).
  { apply BytesToWrite_clamped; unfold is_size_t in *; lia. }
  assert (Hrange : 0 <= n <= Size (Data k) - Start).
  { subst n. destruct (Z.eqb_spec Size_ 0); unfold is_size_t in *; lia. }
  assert (Hcall : WriteDataFromTo w k Offset_ Start Size_ = BaseWrite Start Offset_ n).
  { unfold WriteDataFromTo. rewrite Hn.
    assert (Hsmall : is_size_t w n) by (unfold is_size_t in *; lia).
    rewrite (to_size_t_id _ _ Hsmall).
    destruct Hw as [-> | ->].
    - unfold is_size_t in HS. rewrite size_t_modulus_4 in HS.
      destruct (Z.gtb_spec n 4294967295); [lia | reflexivity].
    - reflexivity. }
  split; [exact Hcall |].
  rewrite Hcall. unfold passed_bytes.
  destruct (Z.leb_spec 0 Start); [| lia].
  destruct (Z.leb_spec 0 n); [| lia].
  destruct (Z.leb_spec (Start + n) (Size (Data k))); [| lia].
  reflexivity.
Qed.

(** The default request on a 4-byte platform writes the rest of the
    chunk. *)
Lemma WriteDataFromTo_clamped_witness :
  WriteDataFromTo 4 four_bytes 0 1 (size_t_minus_1 4) = BaseWrite 1 0 3 /\
  passed_bytes (Data four_bytes)
    (WriteDataFromTo 4 four_bytes 0 1 (size_t_minus_1 4)) = Some [2; 3; 4].
Proof.
  apply (WriteDataFromTo_clamped 4 four_bytes 0 1 (size_t_minus_1 4));
    vm_compute; intuition congruence.
Defined.

(** On an 8-byte platform the default request [(size_t)-1] is negative
    as a [Length], wins the comparison and is passed on as the count. *)
Example WriteDataFromTo_default_size_8 :
  WriteDataFromTo 8 four_bytes 0 1 (size_t_minus_1 8)
    = BaseWrite 1 0 18446744073709551615 /\
  passed_bytes (Data four_bytes)
    (WriteDataFromTo 8 four_bytes 0 1 (size_t_minus_1 8)) = None.
Proof. split; reflexivity. Qed.

(** C2: [WriteDataFromTo] takes the error branch (no base write, returns
    0) exactly when [sizeof(size_t) < 8] and the computed byte count
    exceeds 0xffffffff; with an 8-byte [size_t] the branch is never
    taken. *)
Theorem WriteDataFromTo_ChunkTooLarge w k Offset_ Start Size_ :
  (WriteDataFromTo w k Offset_ Start Size_ = ChunkTooLarge
     <-> w < 8 /\ BytesToWrite k Start Size_ > 4294967295) /\
  (8 <= w -> exists n, WriteDataFromTo w k Offset_ Start Size_ = BaseWrite Start Offset_ n).
Proof.
  unfold WriteDataFromTo. split; [split |].
  - destruct (Z.ltb_spec w 8); simpl.
    + destruct (Z.gtb_spec (BytesToWrite k Start Size_) 4294967295); [lia | discriminate].
    + discriminate.
  - intros [Hw Hn].
    destruct (Z.ltb_spec w 8); [| lia]. simpl.
    destruct (Z.gtb_spec (BytesToWrite k Start Size_) 4294967295); [reflexivity | lia].
  - intros Hw. destruct (Z.ltb_spec w 8); [lia |]. simpl. eauto.
Qed.

(** A 4-byte platform asked to write from 4 GBytes before the chunk. *)
Lemma WriteDataFromTo_ChunkTooLarge_witness :
  WriteDataFromTo 4 four_bytes 0 (- 2 ^ 32) 0 = ChunkTooLarge.
Proof.
  apply (proj1 (WriteDataFromTo_ChunkTooLarge 4 four_bytes 0 (- 2 ^ 32) 0)).
  vm_compute. split; reflexivity.
Defined.

(** *** The chunk invariant *)

Lemma chunk_invariantb_spec k : chunk_invariantb k = true <-> chunk_invariant k.
Proof.
  unfold chunk_invariantb, chunk_invariant.
  rewrite andb_true_iff, !Z.leb_le. tauto.
Qed.

Lemma chunk_invariant_SetDataBase k b :
  chunk_invariant (SetDataBase k b) <-> 0 <= b /\ b + Size (Data k) <= ValueLength k.
Proof. reflexivity. Qed.

Lemma chunk_invariant_SetLength k l :
  chunk_invariant (SetLength k l) <-> 0 <= DataBase k /\ DataBase k + Size (Data k) <= l.
Proof. reflexivity. Qed.

(** Every setter leaves the chunk alone; only [SetDataBase] and
    [SetLength] touch the window and its bound. *)
Lemma step_Data k o : Data (step k o) = Data k.
Proof.
  destruct o; simpl; try reflexivity.
  unfold SetSource. now destruct (negb _).
Qed.

Lemma step_in_bounds k o :
  chunk_invariant k -> in_bounds k o -> chunk_invariant (step k o).
Proof.
  unfold chunk_invariant. intros [H0 H1] Hb.
  destruct o; simpl in *; try (split; assumption).
  - unfold SetSource. destruct (negb _); simpl; split; assumption.
  - exact Hb.
Qed.

(** A read fails and leaves the cursor alone, or replaces the chunk by
    no more than the value holds from the offset on. *)
Lemma Base_ReadDataFrom_cases w k src Offset_ Size_ :
  Base_ReadDataFrom w k src Offset_ Size_ = (0, k) \/
  exists chunk,
    Base_ReadDataFrom w k src Offset_ Size_
      = (Size chunk,
         mkKLV (Source k) (Dest k) (TheUL k) (ValueLength k) chunk Offset_ (ReadHandler k))
    /\ Size chunk <= Z.max 0 (ValueLength k - Offset_).
Proof.
  unfold Base_ReadDataFrom. cbv zeta.
  set (n := if Size_ =? size_t_minus_1 w then ValueLength k - Offset_
            else Z.min Size_ (ValueLength k - Offset_)).
  assert (Hn : n <= ValueLength k - Offset_).
  { subst n. destruct (Size_ =? size_t_minus_1 w); lia. }
  destruct (size_t_modulus w <=? n); [now left | right].
  eexists. split; [reflexivity |].
  unfold Size. rewrite length_take. lia.
Qed.

(** A read that materialises at least one byte from an offset that is
    not negative leaves the chunk inside the value field, whatever the
    cursor held before. *)
Lemma Base_ReadDataFrom_materialised w k src Offset_ Size_ :
  0 <= Offset_ -> 0 < fst (Base_ReadDataFrom w k src Offset_ Size_) ->
  chunk_invariant (snd (Base_ReadDataFrom w k src Offset_ Size_)).
Proof.
  intros Hoff.
  destruct (Base_ReadDataFrom_cases w k src Offset_ Size_) as [-> | (chunk & -> & Hle)];
    simpl; [lia |].
  intros Hpos. unfold chunk_invariant. simpl. lia.
Qed.

(** A read from an offset of the value field keeps the invariant. *)
Lemma Base_ReadDataFrom_in_bounds w k src Offset_ Size_ :
  chunk_invariant k -> 0 <= Offset_ <= ValueLength k ->
  chunk_invariant (snd (Base_ReadDataFrom w k src Offset_ Size_)).
Proof.
  intros Hk Hoff.
  destruct (Base_ReadDataFrom_cases w k src Offset_ Size_) as [-> | (chunk & -> & Hle)];
    simpl; [exact Hk |].
  unfold chunk_invariant. simpl. lia.
Qed.

Lemma perform_in_bounds w k c :
  chunk_invariant k -> call_in_bounds k c -> chunk_invariant (perform w k c).
Proof.
  intros Hk Hc. destruct c as [o | src sz | src off sz]; simpl in *.
  - now apply step_in_bounds.
  - apply Base_ReadDataFrom_in_bounds; [exact Hk |].
    pose proof (Size_nonneg (Data k)). unfold chunk_invariant in Hk. lia.
  - now apply Base_ReadDataFrom_in_bounds.
Qed.

Lemma calls_in_bounds_take w cs : forall k n,
  calls_in_bounds w k cs -> calls_in_bounds w k (take n cs).
Proof.
  induction cs as [| c cs IH]; intros k [| n]; simpl; try tauto.
  intros [Hc Hcs]. split; [assumption | now apply IH].
Qed.

Lemma perform_all_in_bounds w cs : forall k,
  chunk_invariant k -> calls_in_bounds w k cs -> chunk_invariant (perform_all w k cs).
Proof.
  induction cs as [| c cs IH]; intros k Hk Hcs; simpl in *.
  - exact Hk.
  - destruct Hcs as [Hc Hcs]. apply IH; [now apply perform_in_bounds | exact Hcs].
Qed.

(** C5, as stated, fails: [SetDataBase] and [SetLength] store their
    argument unchecked.  From a cursor holding all four bytes of its
    value, either call breaks the invariant. *)
Lemma chunk_invariant_broken_by_setters :
  chunk_invariant four_bytes /\
  ~ chunk_invariant (run four_bytes [OpSetDataBase (-1)]) /\
  ~ chunk_invariant (run four_bytes [OpSetDataBase 1]) /\
  ~ chunk_invariant (run four_bytes [OpSetLength 3]).
Proof.
  repeat split; try (vm_compute; congruence);
    rewrite <- chunk_invariantb_spec; vm_compute; congruence.
Qed.

(** C5 (amended): every [ReadData], and every [ReadDataFrom] from an
    offset that is not negative, that materialises at least one byte
    leaves [0 <= DataBase] and [DataBase + Data.Size <= ValueLength],
    whatever the cursor held before.  From a cursor that satisfies the
    invariant, it holds after each operation of every sequence of
    public operations in which [ReadDataFrom] starts at an offset of
    the value field and the arguments of [SetDataBase] and [SetLength]
    keep the chunk inside the value field.  [SetDataBase] and
    [SetLength] store their argument unchecked: after [SetDataBase(b)]
    the invariant holds exactly when [0 <= b] and
    [b + Data.Size <= ValueLength], after [SetLength(l)] exactly when
    [0 <= DataBase] and [DataBase + Data.Size <= l]. *)
Theorem chunk_invariant_preserved w k calls :
  (forall src Size_,
     0 < fst (ReadData w k src Size_) -> chunk_invariant (snd (ReadData w k src Size_))) /\
  (forall src Offset_ Size_,
     0 <= Offset_ -> 0 < fst (ReadDataFrom w k src Offset_ Size_) ->
     chunk_invariant (snd (ReadDataFrom w k src Offset_ Size_))) /\
  (chunk_invariant k -> calls_in_bounds w k calls ->
   forall n, chunk_invariant (perform_all w k (take n calls))) /\
  (forall b, chunk_invariant (SetDataBase k b)
             <-> 0 <= b /\ b + Size (Data k) <= ValueLength k) /\
  (forall l, chunk_invariant (SetLength k l)
             <-> 0 <= DataBase k /\ DataBase k + Size (Data k) <= l).
Proof.
  split; [| split; [| split; [| split]]].
  - intros src Size_. now apply Base_ReadDataFrom_materialised.
  - intros src Offset_ Size_. apply Base_ReadDataFrom_materialised.
  - intros Hk Hcs n. apply perform_all_in_bounds; [exact Hk |].
    now apply calls_in_bounds_take.
  - intros b. apply chunk_invariant_SetDataBase.
  - intros l. apply chunk_invariant_SetLength.
Qed.

(** Growing the value to 6 bytes, reading from offset 2 to its end,
    moving the window, then reading the first 3 bytes. *)
Lemma chunk_invariant_preserved_witness :
  chunk_invariant
    (perform_all 8 four_bytes
       [CallSetter (OpSetLength 6);
        CallReadDataFrom served 2 (size_t_minus_1 8);
        CallSetter (OpSetDataBase 1);
        CallSetter (OpSetSource (mkFile "a.mxf" 0) (-1));
        CallReadData served 3]).
Proof.
  apply (proj1 (proj2 (proj2 (chunk_invariant_preserved 8 four_bytes
           [CallSetter (OpSetLength 6);
            CallReadDataFrom served 2 (size_t_minus_1 8);
            CallSetter (OpSetDataBase 1);
            CallSetter (OpSetSource (mkFile "a.mxf" 0) (-1));
            CallReadData served 3])))
         ltac:(vm_compute; split; congruence)
         ltac:(vm_compute; intuition congruence)
         5%nat).
Defined.

(** Two reads of a chunk each, the second replacing the first. *)
Example chunked_read :
  let k := SetLength four_bytes 8 in
  let r1 := ReadDataFrom 8 k served 0 3 in
  let r2 := ReadDataFrom 8 (snd r1) served 3 3 in
  fst r1 = 3 /\ fst r2 = 3 /\
  DataBase (snd r2) = 3 /\ Data (snd r2) = [13; 14; 15].
Proof. repeat split. Qed.

(** *** Source and destination records *)

Lemma KLVInfo_assign_eq l r : KLVInfo_assign l r = r.
Proof. now destruct r. Qed.

(** C8: [SetSource(File, Location)] makes the source record valid, with
    the given file and [Offset = Location], or the file's position when
    [Location < 0], keeping its other fields; a destination that is not
    valid becomes a copy of the whole new source record, a valid one (in
    particular one set by [SetDestination]) keeps every field; nothing
    else in the cursor changes. *)
Theorem SetSource_spec k F Location :
  Source (SetSource k F Location)
    = {| File := Some F;
         Offset := if Location <? 0 then Tell F else Location;
         OuterLength := OuterLength (Source k);
         KLSize := KLSize (Source k);
         Valid := true |} /\
  Dest (SetSource k F Location)
    = (if Valid (Dest k) then Dest k else Source (SetSource k F Location)) /\
  (forall F' Location',
     Dest (SetSource (SetDestination k F' Location') F Location)
       = Dest (SetDestination k F' Location')) /\
  TheUL (SetSource k F Location) = TheUL k /\
  ValueLength (SetSource k F Location) = ValueLength k /\
  Data (SetSource k F Location) = Data k /\
  DataBase (SetSource k F Location) = DataBase k /\
  ReadHandler (SetSource k F Location) = ReadHandler k.
Proof.
  unfold SetSource. simpl.
  destruct (Valid (Dest k)) eqn:HV; simpl; rewrite ?KLVInfo_assign_eq;
    repeat split; reflexivity.
Qed.

(** A second [SetSource] does not move a destination that the first
    one filled in. *)
Example SetSource_twice :
  let f := mkFile "in.mxf" 100 in
  let g := mkFile "other.mxf" 7 in
  let k := SetSource (SetSource four_bytes f (-1)) g 32 in
  Offset (Source k) = 32 /\ Offset (Dest k) = 100 /\ File (Dest k) = Some f.
Proof. repeat split. Qed.

(** C10: [SetKLSize(n)] stores [n] in the destination KL size and changes
    nothing else; [GetKLSize] is the source KL size when that is not
    negative and the destination KL size otherwise, so on a cursor with
    a known source KL size [SetKLSize] does not change what [GetKLSize]
    returns. *)
Theorem SetKLSize_GetKLSize k n :
  (Source (SetKLSize k n) = Source k /\
   TheUL (SetKLSize k n) = TheUL k /\
   ValueLength (SetKLSize k n) = ValueLength k /\
   Data (SetKLSize k n) = Data k /\
   DataBase (SetKLSize k n) = DataBase k /\
   ReadHandler (SetKLSize k n) = ReadHandler k /\
   File (Dest (SetKLSize k n)) = File (Dest k) /\
   Offset (Dest (SetKLSize k n)) = Offset (Dest k) /\
   OuterLength (Dest (SetKLSize k n)) = OuterLength (Dest k) /\
   Valid (Dest (SetKLSize k n)) = Valid (Dest k) /\
   KLSize (Dest (SetKLSize k n)) = n) /\
  (0 <= KLSize (Source k) ->
     GetKLSize k = KLSize (Source k) /\ GetKLSize (SetKLSize k n) = GetKLSize k) /\
  (KLSize (Source k) < 0 ->
     GetKLSize k = KLSize (Dest k) /\ GetKLSize (SetKLSize k n) = n).
Proof.
  split; [repeat split |].
  unfold GetKLSize. simpl.
  split; intros H.
  - destruct (Z.geb_spec (KLSize (Source k)) 0); [split; reflexivity | lia].
  - destruct (Z.geb_spec (KLSize (Source k)) 0); [lia | split; reflexivity].
Qed.

(** A cursor whose KL was read from a file as 20 bytes. *)
Lemma SetKLSize_GetKLSize_witness :
  GetKLSize read_kl_20 = 20 /\ GetKLSize (SetKLSize read_kl_20 17) = GetKLSize read_kl_20.
Proof.
  apply (proj1 (proj2 (SetKLSize_GetKLSize read_kl_20 17))).
  vm_compute. congruence.
Defined.

End KLVFacts.

(** ** Partitions *)

Module PartitionFacts.
Import Partition.

(** C9: in every state of every partition, whatever its metadata holds,
    [IsMetadataComplete()] returns [false], and its only effect is the
    "not yet implemented" warning. *)
Theorem IsMetadataComplete_false (p : Partition) (log : list Diagnostic) :
  fst (IsMetadataComplete p log) = false /\
  exists msg, snd (IsMetadataComplete p log) = log ++ [Warning msg].
Proof. split; [reflexivity | eexists; reflexivity]. Qed.

(** *** The resolver's tables, read against the sets seen so far *)

Lemma classified_ext T T' (R R' : RefSlot -> UUID -> Prop) p :
  (forall u, T u = T' u) -> (forall sl u, R sl u <-> R' sl u) ->
  classified T R p -> classified T' R' p.
Proof.
  intros HT HR (Ht & Hu & Hl). split; [| split].
  - intros u. now rewrite Ht.
  - intros u sl. now rewrite Hu, HR, HT.
  - intros sl t. rewrite Hl. split; intros (u & H1 & H2); exists u.
    + now rewrite <- HR, <- HT.
    + now rewrite HR, HT.
Qed.

Lemma classified_register_ref T R p r :
  classified T R p ->
  classified T (fun sl u => R sl u \/ (sl, u) = r) (register_ref p r).
Proof.
  intros (Ht & Hu & Hl). destruct r as [sl0 u0]. unfold register_ref. simpl.
  destruct (RefTargets p !! u0) as [t0 |] eqn:Hlk; rewrite Ht in Hlk;
    (split; [exact Ht | split]); simpl.
  - intros u sl. rewrite Hu. split; [tauto |].
    intros [[HR | Heq] Hn]; [tauto |]. congruence.
  - intros sl t. rewrite elem_of_app, list_elem_of_singleton, Hl. split.
    + intros [(u & HR & Hu') | Heq]; [exists u; tauto |].
      injection Heq as -> ->. exists u0. tauto.
    + intros (u & [HR | Heq] & Hu'); [left; eauto |].
      right. injection Heq as -> ->. congruence.
  - intros u sl. rewrite elem_of_app, list_elem_of_singleton, Hu. split.
    + intros [[HR Hn] | Heq]; [tauto |]. injection Heq as -> ->. tauto.
    + intros [[HR | Heq] Hn]; [tauto |]. right. congruence.
  - intros sl t. rewrite Hl. split.
    + intros (u & HR & Hu'). exists u. tauto.
    + intros (u & [HR | Heq] & Hu'); [eauto |]. congruence.
Qed.

Lemma classified_ProcessChildRefs T l : forall R p,
  classified T R p ->
  classified T (fun sl u => R sl u \/ (sl, u) ∈ l) (fold_left register_ref l p).
Proof.
  induction l as [| r l IH]; intros R p Hc; simpl.
  - eapply classified_ext; [reflexivity | | exact Hc].
    intros sl u. rewrite elem_of_nil. tauto.
  - eapply classified_ext; [reflexivity | | apply IH, classified_register_ref, Hc].
    intros sl u. rewrite elem_of_cons. simpl. tauto.
Qed.

Lemma classified_register_target T R p u o :
  classified T R p -> classified (with_target T u o) R (register_target u o p).
Proof.
  intros (Ht & Hu & Hl). unfold register_target, with_target.
  split; [| split]; simpl.
  - intros v. unfold map_insert.
    destruct (RefTargets p !! u) as [t |] eqn:Hlk.
    + rewrite Ht. destruct (T v) eqn:HTv; [reflexivity |].
      destruct (decide (v = u)) as [-> |]; [| reflexivity].
      rewrite Ht in Hlk. congruence.
    + rewrite lookup_insert. destruct (decide (u = v)) as [-> |].
      * rewrite <- Ht, Hlk. now rewrite decide_True.
      * rewrite Ht. destruct (T v); [reflexivity |]. now rewrite decide_False.
  - intros v sl. rewrite list_elem_of_filter, Hu. simpl.
    destruct (T v); [intuition congruence |].
    destruct (decide (v = u)); intuition congruence.
  - intros sl t. rewrite elem_of_app, list_elem_of_fmap, Hl. split.
    + intros [(v & HR & HT) | ([v sl'] & Heq & Hin)].
      * exists v. now rewrite HT.
      * rewrite list_elem_of_filter, Hu in Hin. simpl in *.
        destruct Hin as (-> & HR & HT). injection Heq as -> ->.
        exists u. rewrite HT. now rewrite decide_True.
    + intros (v & HR & HT). destruct (T v) as [t' |] eqn:HTv.
      * left. exists v. split; congruence.
      * destruct (decide (v = u)) as [-> |]; [| discriminate].
        right. exists (u, sl). split; [simpl; congruence |].
        rewrite list_elem_of_filter, Hu. simpl. tauto.
Qed.

Lemma AllMetadata_ProcessChildRefs l : forall p,
  AllMetadata (fold_left register_ref l p) = AllMetadata p.
Proof.
  induction l as [| r l IH]; intros p; simpl; [reflexivity |].
  rewrite IH. unfold register_ref. now destruct (RefTargets p !! r.2).
Qed.

(** *** Sets joining the partition one by one *)

Lemma target_from_snoc l : forall n s v,
  target_from n (l ++ [s]) v =
    match target_from n l v with
    | Some t => Some t
    | None => if bool_decide (InstanceUID s = Some v) then Some (n + length l)%nat else None
    end.
Proof.
  induction l as [| a l IH]; intros n s v; simpl.
  - now rewrite Nat.add_0_r.
  - destruct (bool_decide (InstanceUID a = Some v)); [reflexivity |].
    rewrite IH. now rewrite Nat.add_succ_r.
Qed.

Lemma target_from_bound l : forall n v t,
  target_from n l v = Some t -> (n <= t < n + length l)%nat.
Proof.
  induction l as [| a l IH]; intros n v t; simpl; [discriminate |].
  destruct (bool_decide (InstanceUID a = Some v)).
  - intros [= <-]. lia.
  - intros H. apply IH in H. lia.
Qed.

Lemma target_of_snoc done s v :
  target_of (done ++ [s]) v =
    match InstanceUID s with
    | Some u => with_target (target_of done) u (length done) v
    | None => target_of done v
    end.
Proof.
  unfold target_of, with_target. rewrite target_from_snoc. simpl.
  destruct (target_from 0 done v); [now destruct (InstanceUID s) |].
  destruct (InstanceUID s) as [u |].
  - destruct (decide (v = u)) as [-> |].
    + now rewrite bool_decide_eq_true_2.
    + rewrite bool_decide_eq_false_2; [reflexivity | congruence].
  - now rewrite bool_decide_eq_false_2.
Qed.

Lemma elem_of_slots_of o s sl u :
  (sl, u) ∈ slots_of o s <-> owner sl = o /\ Refs s !! slot sl = Some (kind sl, u).
Proof.
  unfold slots_of. rewrite elem_of_lookup_imap. split.
  - intros (j & [k v] & Heq & Hj). injection Heq as -> ->. simpl. auto.
  - intros [<- Hj]. exists (slot sl), (kind sl, u). split; [now destruct sl | exact Hj].
Qed.

Lemma is_ref_snoc done s sl u :
  is_ref (done ++ [s]) sl u <-> is_ref done sl u \/ (sl, u) ∈ slots_of (length done) s.
Proof.
  rewrite elem_of_slots_of. unfold is_ref. split.
  - intros (s' & Hs' & Hr). apply lookup_snoc_Some in Hs' as [[Hlt Hs'] | [Heq ->]].
    + left. eauto.
    + right. auto.
  - intros [(s' & Hs' & Hr) | [Heq Hr]].
    + exists s'. split; [| exact Hr]. apply lookup_app_l_Some, Hs'.
    + exists s. split; [| exact Hr]. rewrite Heq. apply list_lookup_middle. reflexivity.
Qed.

Lemma resolved_ClearMetadata p : resolved [] (ClearMetadata p).
Proof.
  split; [reflexivity |]. split; [| split]; simpl.
  - intros u. apply lookup_empty.
  - intros u sl. rewrite elem_of_nil. unfold is_ref.
    split; [tauto |]. intros [(s & Hs & _) _]. discriminate.
  - intros sl t. rewrite elem_of_nil. unfold is_ref.
    split; [tauto |]. intros (u & (s & Hs & _) & _). discriminate.
Qed.

Lemma resolved_AddMetadata done p s :
  resolved done p -> resolved (done ++ [s]) (AddMetadata p s).
Proof.
  intros [Hall Hc]. unfold AddMetadata, ProcessChildRefs.
  assert (Hlen : length (AllMetadata p) = length done)
    by (rewrite Hall; apply length_seq).
  rewrite Hlen. split.
  - rewrite AllMetadata_ProcessChildRefs.
    rewrite length_app, Nat.add_1_r, seq_S. simpl.
    destruct (InstanceUID s); simpl; now rewrite Hall.
  - eapply classified_ext;
      [ | | apply (classified_ProcessChildRefs
                     (target_of (done ++ [s])) (slots_of (length done) s) (is_ref done)) ].
    + reflexivity.
    + intros sl u. now rewrite is_ref_snoc.
    + destruct (InstanceUID s) as [u |] eqn:Hu.
      * eapply classified_ext; [ | reflexivity | apply classified_register_target ].
        -- intros v. rewrite target_of_snoc, Hu. reflexivity.
        -- exact Hc.
      * eapply classified_ext; [ | reflexivity | exact Hc ].
        intros v. rewrite target_of_snoc, Hu. reflexivity.
Qed.

Lemma resolved_fold sets : forall done p,
  resolved done p -> resolved (done ++ sets) (fold_left AddMetadata sets p).
Proof.
  induction sets as [| s sets IH]; intros done p Hr; simpl.
  - now rewrite app_nil_r.
  - replace (done ++ s :: sets) with ((done ++ [s]) ++ sets)
      by (now rewrite <- app_assoc).
    apply IH, resolved_AddMetadata, Hr.
Qed.

Lemma resolved_ReadMetadata p sets :
  resolved sets (fold_left AddMetadata sets (ClearMetadata p)).
Proof. apply (resolved_fold sets [] _ (resolved_ClearMetadata p)). Qed.

(** *** After ReadMetadata *)

Lemma register_target_drains q u o :
  (RefTargets q !! u = None -> RefTargets (register_target u o q) !! u = Some o) /\
  (forall sl, (u, sl) ∉ UnmatchedRefs (register_target u o q)) /\
  (forall sl, (u, sl) ∈ UnmatchedRefs q -> (sl, o) ∈ Links (register_target u o q)) /\
  (forall v sl, v <> u ->
     ((v, sl) ∈ UnmatchedRefs (register_target u o q) <-> (v, sl) ∈ UnmatchedRefs q)).
Proof.
  unfold register_target. simpl. repeat split.
  - intros Hn. unfold map_insert. rewrite Hn. apply lookup_insert_eq.
  - intros sl Hin. apply list_elem_of_filter in Hin as [Hne _]. now apply Hne.
  - intros sl Hin. apply elem_of_app. right.
    apply list_elem_of_fmap. exists (u, sl). split; [reflexivity |].
    apply list_elem_of_filter. auto.
  - intros Hin. now apply list_elem_of_filter in Hin as [_ Hin].
  - intros Hin. apply list_elem_of_filter. auto.
Qed.

Lemma elem_of_strong_link_targets ln o :
  o ∈ strong_link_targets ln <-> exists sl, kind sl = StrongRef /\ (sl, o) ∈ ln.
Proof.
  unfold strong_link_targets. rewrite list_elem_of_fmap. split.
  - intros ([sl t] & -> & Hin). apply list_elem_of_filter in Hin as [Hk Hin]. eauto.
  - intros (sl & Hk & Hin). exists (sl, o). split; [reflexivity |].
    apply list_elem_of_filter. auto.
Qed.

Lemma resolved_strong_link_targets sets p o :
  resolved sets p ->
  o ∈ strong_link_targets (Links p) <-> strong_ref_target sets o.
Proof.
  intros [_ (_ & _ & Hl)]. rewrite elem_of_strong_link_targets. split.
  - intros ([i j k] & Hk & Hin). simpl in Hk. subst k.
    apply Hl in Hin as (u & Hr & Ht). exists i, j, u. auto.
  - intros (i & j & u & Hr & Ht). exists (mkSlot i j StrongRef).
    split; [reflexivity |]. apply Hl. eauto.
Qed.

Lemma strong_ref_fromb_spec sets i o :
  strong_ref_fromb sets i o = true <-> strong_ref_from sets i o.
Proof.
  unfold strong_ref_fromb, strong_ref_from, is_ref. cbn [owner slot kind]. split.
  - destruct (sets !! i) as [s |]; [| discriminate].
    intros H. apply existsb_exists in H as ([k u] & Hin & Hb).
    apply andb_true_iff in Hb as [Hk Ht].
    apply bool_decide_eq_true in Hk, Ht. simpl in *. subst k.
    apply list_elem_of_In, list_elem_of_lookup in Hin as [j Hj].
    exists j, u. split; [exists s; auto | exact Ht].
  - intros (j & u & (s & -> & Hj) & Ht).
    apply existsb_exists. exists (StrongRef, u). split.
    + apply list_elem_of_In. eapply list_elem_of_lookup_2, Hj.
    + simpl. rewrite bool_decide_eq_true_2 by exact Ht. reflexivity.
Qed.

Lemma strong_ref_from_lt sets i o : strong_ref_from sets i o -> (i < length sets)%nat.
Proof. intros (j & u & (s & Hs & _) & _). eapply lookup_lt_Some, Hs. Qed.

Lemma strong_ref_targetb_spec sets o :
  strong_ref_targetb sets o = true <-> strong_ref_target sets o.
Proof.
  unfold strong_ref_targetb, strong_ref_target. rewrite existsb_exists. split.
  - intros (i & _ & Hi). exists i. now apply strong_ref_fromb_spec.
  - intros (i & Hi). exists i. split; [| now apply strong_ref_fromb_spec].
    apply in_seq. apply strong_ref_from_lt in Hi. lia.
Qed.

Lemma strong_ref_target_of_otherb_spec sets o :
  strong_ref_target_of_otherb sets o = true <-> strong_ref_target_of_other sets o.
Proof.
  unfold strong_ref_target_of_otherb, strong_ref_target_of_other.
  rewrite existsb_exists. split.
  - intros (i & _ & Hi). apply andb_true_iff in Hi as [Hne Hi]. exists i. split.
    + intros ->. now rewrite Nat.eqb_refl in Hne.
    + now apply strong_ref_fromb_spec.
  - intros (i & Hne & Hi). exists i. split.
    + apply in_seq. apply strong_ref_from_lt in Hi. lia.
    + apply andb_true_iff. split; [| now apply strong_ref_fromb_spec].
      apply negb_true_iff, Nat.eqb_neq, Hne.
Qed.

(** The two filters: stdpp's on a decidable predicate, the list
    library's on the boolean that decides it. *)
Lemma filter_decide_bool {A} (P : A -> Prop) `{forall x, Decision (P x)}
    (f : A -> bool) (l : list A) :
  (forall x, x ∈ l -> (P x <-> f x = true)) -> filter P l = List.filter f l.
Proof.
  induction l as [| x l IH]; intros Hf; [reflexivity |].
  rewrite filter_cons. simpl.
  assert (Hx := Hf x ltac:(left)).
  assert (Hl : filter P l = List.filter f l)
    by (apply IH; intros y Hy; apply Hf; now right).
  destruct (decide (P x)) as [HP | HP], (f x) eqn:Hfx.
  - now rewrite Hl.
  - apply Hx in HP. discriminate.
  - exfalso. apply HP, Hx. reflexivity.
  - exact Hl.
Qed.

(** C3: after [ReadMetadata], no UUID of an [UnmatchedRefs] entry is a
    key of [RefTargets]; registering a new InstanceUID puts it into
    [RefTargets], leaves no unmatched entry for it and links each
    entry it had to the registering object; and every resolved strong
    reference of the partition points to an object of [AllMetadata]. *)
Theorem ReadMetadata_references (p : Partition) (sets : list MDSet) :
  let p' := fst (ReadMetadata p sets) in
  (forall u sl, (u, sl) ∈ UnmatchedRefs p' -> RefTargets p' !! u = None) /\
  (forall q u o,
     (RefTargets q !! u = None -> RefTargets (register_target u o q) !! u = Some o) /\
     (forall sl, (u, sl) ∉ UnmatchedRefs (register_target u o q)) /\
     (forall sl, (u, sl) ∈ UnmatchedRefs q -> (sl, o) ∈ Links (register_target u o q)) /\
     (forall v sl, v <> u ->
        ((v, sl) ∈ UnmatchedRefs (register_target u o q) <-> (v, sl) ∈ UnmatchedRefs q))) /\
  (forall sl t, (sl, t) ∈ Links p' -> kind sl = StrongRef ->
     owner sl ∈ AllMetadata p' /\ t ∈ AllMetadata p').
Proof.
  intros p'. subst p'. unfold ReadMetadata, finalise. simpl.
  destruct (resolved_ReadMetadata p sets) as [Hall (Ht & Hu & Hl)].
  split; [| split].
  - intros u sl Hin. rewrite Ht. now apply Hu in Hin.
  - intros q u o. apply register_target_drains.
  - intros sl t Hin _. apply Hl in Hin as (u & (s & Hs & _) & Htgt).
    rewrite Hall. split; apply elem_of_seq.
    + apply lookup_lt_Some in Hs. lia.
    + apply target_from_bound in Htgt. lia.
Qed.

(** A parent that names its child before the child has been read. *)
Example forward_reference :
  let parent := mkSet [] (Some 1%N) [(StrongRef, 2%N)] in
  let child := mkSet [] (Some 2%N) [] in
  UnmatchedRefs (AddMetadata (ClearMetadata fresh) parent)
    = [(2%N, mkSlot 0 0 StrongRef)] /\
  UnmatchedRefs (fst (ReadMetadata fresh [parent; child])) = [] /\
  Links (fst (ReadMetadata fresh [parent; child])) = [(mkSlot 0 0 StrongRef, 1%nat)] /\
  TopLevelMetadata (fst (ReadMetadata fresh [parent; child])) = [0%nat].
Proof. vm_compute. repeat split. Qed.

(** After [ReadMetadata], whatever the sets hold: the top-level
    objects are those of [AllMetadata] that no strong reference of the
    partition resolves to. *)
Lemma TopLevelMetadata_not_linked (p : Partition) (sets : list MDSet) :
  let p' := fst (ReadMetadata p sets) in
  AllMetadata p' = seq 0 (length sets) /\
  TopLevelMetadata p'
    = List.filter (fun o => negb (strong_ref_targetb sets o)) (AllMetadata p') /\
  (forall o, o ∈ TopLevelMetadata p' <-> o ∈ AllMetadata p' /\ ~ strong_ref_target sets o).
Proof.
  intros p'. subst p'. unfold ReadMetadata, finalise. simpl.
  pose proof (resolved_ReadMetadata p sets) as Hres.
  set (q := fold_left AddMetadata sets (ClearMetadata p)) in *.
  assert (Htgt : forall o, o ∉ strong_link_targets (Links q) <-> ~ strong_ref_target sets o).
  { intros o. now rewrite (resolved_strong_link_targets sets q o Hres). }
  split; [apply Hres | split].
  - apply filter_decide_bool. intros o _.
    rewrite Htgt, negb_true_iff, <- not_true_iff_false.
    now rewrite strong_ref_targetb_spec.
  - intros o. rewrite list_elem_of_filter, Htgt. tauto.
Qed.

(** Where no object is the target of a strong reference of its own,
    being linked from any object and being linked from another object
    are the same. *)
Lemma strong_ref_target_other sets o :
  (forall x, ~ strong_ref_from sets x x) ->
  strong_ref_target sets o <-> strong_ref_target_of_other sets o.
Proof.
  intros Hself. unfold strong_ref_target, strong_ref_target_of_other. split.
  - intros (i & Hi). exists i. split; [| exact Hi].
    intros ->. exact (Hself o Hi).
  - intros (i & _ & Hi). eauto.
Qed.

(** C4: for a partition of the data model, where strong references
    form a forest and so no object is the target of a strong reference
    of its own, after [ReadMetadata] [TopLevelMetadata] equals
    [AllMetadata] minus the objects that are the target of a strong
    reference from some other object of the partition; it is exactly
    the subset of [AllMetadata] not reachable as a strong-reference
    child of any object of the partition. *)
Theorem ReadMetadata_TopLevelMetadata (p : Partition) (sets : list MDSet) :
  (forall o, ~ strong_ref_from sets o o) ->
  let p' := fst (ReadMetadata p sets) in
  AllMetadata p' = seq 0 (length sets) /\
  TopLevelMetadata p'
    = List.filter (fun o => negb (strong_ref_target_of_otherb sets o)) (AllMetadata p') /\
  (forall o, o ∈ TopLevelMetadata p'
             <-> o ∈ AllMetadata p' /\ ~ strong_ref_target_of_other sets o) /\
  (forall o, o ∈ TopLevelMetadata p'
             <-> o ∈ AllMetadata p' /\ ~ strong_ref_target sets o).
Proof.
  intros Hself p'.
  destruct (TopLevelMetadata_not_linked p sets) as (Hall & Hfilter & Hmem).
  fold p' in Hall, Hfilter, Hmem.
  split; [exact Hall | split; [| split; [| exact Hmem]]].
  - rewrite Hfilter. apply filter_ext. intros o. f_equal.
    apply eq_true_iff_eq.
    rewrite strong_ref_targetb_spec, strong_ref_target_of_otherb_spec.
    now apply strong_ref_target_other.
  - intros o. rewrite Hmem, (strong_ref_target_other sets o Hself). tauto.
Qed.

(** Two sets, the parent holding a strong reference to the child: the
    parent alone is top-level. *)
Lemma ReadMetadata_TopLevelMetadata_witness :
  let sets := [mkSet [] (Some 2%N) []; mkSet [] (Some 1%N) [(StrongRef, 2%N)]] in
  TopLevelMetadata (fst (ReadMetadata fresh sets))
    = List.filter (fun o => negb (strong_ref_target_of_otherb sets o))
        (AllMetadata (fst (ReadMetadata fresh sets))).
Proof.
  intros sets.
  refine (proj1 (proj2 (ReadMetadata_TopLevelMetadata fresh sets _))).
  intros o Ho. apply strong_ref_fromb_spec in Ho.
  destruct o as [| [| o]]; vm_compute in Ho; discriminate.
Defined.

Example strong_reference_round_trip :
  let child := mkSet [] (Some 2%N) [] in
  let parent := mkSet [] (Some 1%N) [(StrongRef, 2%N)] in
  TopLevelMetadata (fst (ReadMetadata fresh [child; parent])) = [1%nat] /\
  TopLevelMetadata (fst (ReadMetadata fresh [parent; child])) = [0%nat].
Proof. vm_compute. split; reflexivity. Qed.

End PartitionFacts.

(** ** BER lengths *)

Module BERFacts.
Import BER.

Lemma be_value_from bs : forall acc,
  fold_left (fun a b => a * 256 + b) bs acc
    = acc * 256 ^ Z.of_nat (length bs) + be_value bs.
Proof.
  unfold be_value. induction bs as [| b bs IH]; intros acc.
  - simpl. lia.
  - cbn [fold_left length]. rewrite IH, (IH (0 * 256 + b)).
    rewrite Nat2Z.inj_succ, Z.pow_succ_r by lia. ring.
Qed.

Lemma be_value_snoc bs b : be_value (bs ++ [b]) = be_value bs * 256 + b.
Proof. unfold be_value. now rewrite fold_left_app. Qed.

Lemma length_be_bytes n : forall l, length (be_bytes n l) = n.
Proof.
  induction n as [| n IH]; intros l; simpl; [reflexivity |].
  rewrite length_app, IH. simpl. lia.
Qed.

(** The bytes written spell the length back, up to the width. *)
Lemma be_value_be_bytes n : forall l,
  0 <= l -> be_value (be_bytes n l) = l mod 256 ^ Z.of_nat n.
Proof.
  induction n as [| n IH]; intros l Hl.
  - simpl. now rewrite Z.mod_1_r.
  - cbn [be_bytes]. rewrite be_value_snoc, IH by (apply Z.div_pos; lia).
    rewrite Nat2Z.inj_succ, Z.pow_succ_r by lia.
    rewrite Z.rem_mul_r by lia. lia.
Qed.

(** Every byte written is a [UInt8]. *)
Lemma be_bytes_UInt8 n : forall l b, b ∈ be_bytes n l -> Ints.is_UInt8 b.
Proof.
  unfold Ints.is_UInt8. induction n as [| n IH]; intros l b; simpl.
  - intros H. now apply elem_of_nil in H.
  - rewrite elem_of_app, list_elem_of_singleton. intros [H | ->].
    + eapply IH, H.
    + apply Z.mod_pos_bound. lia.
Qed.

Lemma byte_count_range l : 128 <= l < 2 ^ 63 -> 1 <= byte_count l <= 8.
Proof.
  intros Hl. unfold byte_count.
  assert (7 <= Z.log2 l) by (apply Z.log2_le_pow2; lia).
  assert (Z.log2 l < 63) by (apply Z.log2_lt_pow2; lia).
  assert (0 <= Z.log2 l / 8) by (apply Z.div_pos; lia).
  assert (Z.log2 l / 8 < 8) by (apply Z.div_lt_upper_bound; lia).
  lia.
Qed.

Lemma byte_count_fits l : 0 < l -> l < 256 ^ byte_count l.
Proof.
  intros Hl. unfold byte_count.
  assert (0 <= Z.log2 l) by apply Z.log2_nonneg.
  assert (0 <= Z.log2 l / 8) by (apply Z.div_pos; lia).
  replace 256 with (2 ^ 8) by reflexivity.
  rewrite <- Z.pow_mul_r by lia.
  apply Z.log2_lt_pow2; [lia |].
  pose proof (Z.mod_pos_bound (Z.log2 l) 8 ltac:(lia)).
  pose proof (Z.div_mod (Z.log2 l) 8 ltac:(lia)). lia.
Qed.

(** Fewer than [byte_count l] bytes do not hold [l]. *)
Lemma byte_count_least l n : 0 < l -> 0 <= n -> l < 256 ^ n -> byte_count l <= n.
Proof.
  intros Hl Hn Hfit. unfold byte_count.
  replace 256 with (2 ^ 8) in Hfit by reflexivity.
  rewrite <- Z.pow_mul_r in Hfit by lia.
  apply Z.log2_lt_pow2 in Hfit; [| lia].
  assert (Z.log2 l / 8 < n) by (apply Z.div_lt_upper_bound; lia).
  lia.
Qed.

(** Decoding a long form of [n] value bytes. *)
Lemma decode_long n l :
  1 <= n <= 8 -> 0 <= l < 2 ^ 63 -> l < 256 ^ n ->
  decode ((128 + n) :: be_bytes (Z.to_nat n) l) = Ok (l, 1 + n).
Proof.
  intros Hn Hl Hfit. unfold decode.
  destruct (Z.ltb_spec (128 + n) 128); [lia |].
  assert (Hland : Z.land (128 + n) 127 = n).
  { assert (Hcases : n = 1 \/ n = 2 \/ n = 3 \/ n = 4 \/ n = 5 \/ n = 6 \/ n = 7 \/ n = 8) by lia.
    destruct Hcases as [-> | [-> | [-> | [-> | [-> | [-> | [-> | ->]]]]]]]; reflexivity. }
  rewrite Hland.
  destruct (Z.ltb_spec n 1); [lia |].
  destruct (Z.ltb_spec 8 n); [lia |]. simpl orb. cbv iota.
  rewrite length_be_bytes, Z2Nat.id by lia.
  rewrite Z.ltb_irrefl.
  rewrite firstn_all2 by (rewrite length_be_bytes; lia).
  rewrite be_value_be_bytes, Z2Nat.id by lia.
  rewrite Z.mod_small by lia.
  destruct (Z.leb_spec (2 ^ 63) l); [lia | reflexivity].
Qed.

Lemma decode_encode_min_width l :
  0 <= l < 2 ^ 63 -> decode (encode_min_width l) = Ok (l, min_width l).
Proof.
  intros Hl. unfold encode_min_width, min_width.
  destruct (Z.ltb_spec l 128) as [Hs | Hs].
  - unfold decode. destruct (Z.ltb_spec l 128); [reflexivity | lia].
  - apply decode_long; [apply byte_count_range; lia | lia |].
    apply byte_count_fits. lia.
Qed.

Lemma encode_fixed_width_defined l w :
  0 <= l < 2 ^ 63 -> min_width l <= w ->
  (is_Some (encode_fixed_width l w) <-> w <= 9).
Proof.
  intros Hl Hw. unfold encode_fixed_width, min_width in *.
  destruct (Z.eqb_spec w 1) as [-> | Hw1].
  - destruct (Z.ltb_spec l 128) as [Hs | Hs].
    + split; [lia | eauto].
    + pose proof (byte_count_range l ltac:(lia)). lia.
  - assert (Hfit : l < 256 ^ (w - 1)).
    { destruct (Z.ltb_spec l 128) as [Hs | Hs].
      - apply Z.lt_le_trans with (256 ^ 1); [lia |].
        apply Z.pow_le_mono_r; lia.
      - apply Z.lt_le_trans with (256 ^ byte_count l).
        + apply byte_count_fits. lia.
        + apply Z.pow_le_mono_r; lia. }
    assert (2 <= w).
    { destruct (Z.ltb_spec l 128); [lia |].
      pose proof (byte_count_range l ltac:(lia)). lia. }
    destruct (Z.leb_spec 2 w); [| lia].
    destruct (Z.ltb_spec l (256 ^ (w - 1))); [| lia].
    destruct (Z.leb_spec w 9); simpl.
    + split; [lia | eauto].
    + split; [intros [x Hx]; discriminate | lia].
Qed.

Lemma decode_encode_fixed_width l w bs :
  0 <= l < 2 ^ 63 -> encode_fixed_width l w = Some bs -> decode bs = Ok (l, w).
Proof.
  intros Hl. unfold encode_fixed_width.
  destruct (Z.eqb_spec w 1) as [-> | Hw1].
  - destruct (Z.ltb_spec l 128) as [Hs | Hs]; [| discriminate].
    intros [= <-]. unfold decode.
    destruct (Z.ltb_spec l 128); [reflexivity | lia].
  - destruct (Z.leb_spec 2 w); [| discriminate].
    destruct (Z.leb_spec w 9); [| discriminate].
    destruct (Z.ltb_spec l (256 ^ (w - 1))); [| discriminate].
    simpl. intros [= <-].
    replace w with (1 + (w - 1)) at 3 by lia.
    apply decode_long; lia.
Qed.

(** The requested width is never below [min_width]. *)
Lemma encode_fixed_width_min l w :
  0 <= l -> is_Some (encode_fixed_width l w) -> min_width l <= w.
Proof.
  intros Hl [bs Hbs]. unfold encode_fixed_width, min_width in *.
  destruct (Z.eqb_spec w 1) as [-> | Hw1].
  - destruct (Z.ltb_spec l 128); [lia | discriminate].
  - destruct (Z.leb_spec 2 w); [| discriminate].
    destruct (Z.leb_spec w 9); [| discriminate].
    destruct (Z.ltb_spec l (256 ^ (w - 1))); [| discriminate].
    destruct (Z.ltb_spec l 128); [lia |].
    pose proof (byte_count_least l (w - 1) ltac:(lia) ltac:(lia) ltac:(assumption)). lia.
Qed.

(** C6: for a length [l] in [0, 2^63), decoding the minimal-width
    encoding yields [l]; an encoding of width [w >= min_width l] exists
    for the widths BER has (up to 9 bytes), and decoding it yields [l];
    0, 127, 128 and 65535 encode as [00], [7F], [81 80] and [82 FF FF]. *)
Theorem BER_round_trip l :
  0 <= l < 2 ^ 63 ->
  decode (encode_min_width l) = Ok (l, min_width l) /\
  encode_fixed_width l (min_width l) = Some (encode_min_width l) /\
  (forall w, min_width l <= w ->
     (is_Some (encode_fixed_width l w) <-> w <= 9) /\
     (forall bs, encode_fixed_width l w = Some bs -> decode bs = Ok (l, w))) /\
  encode_min_width 0 = [0] /\
  encode_min_width 127 = [127] /\
  encode_min_width 128 = [129; 128] /\
  encode_min_width 65535 = [130; 255; 255].
Proof.
  intros Hl. split; [now apply decode_encode_min_width |].
  split; [| split; [| repeat split]].
  - unfold encode_fixed_width, encode_min_width, min_width.
    destruct (Z.ltb_spec l 128) as [Hs | Hs]; [reflexivity |].
    pose proof (byte_count_range l ltac:(lia)) as Hb.
    pose proof (byte_count_fits l ltac:(lia)) as Hf.
    destruct (Z.eqb_spec (1 + byte_count l) 1); [lia |].
    replace (1 + byte_count l - 1) with (byte_count l) by lia.
    destruct (Z.leb_spec 2 (1 + byte_count l)); [| lia].
    destruct (Z.leb_spec (1 + byte_count l) 9); [| lia].
    destruct (Z.ltb_spec l (256 ^ byte_count l)); [reflexivity | lia].
  - intros w Hw. split.
    + now apply encode_fixed_width_defined.
    + intros bs. now apply decode_encode_fixed_width.
Qed.

(** 300 is [82 01 2C]; padded to four bytes it is [83 00 01 2C]. *)
Lemma BER_round_trip_witness :
  decode (encode_min_width 300) = Ok (300, min_width 300).
Proof. apply (proj1 (BER_round_trip 300 ltac:(lia))). Defined.

Example encode_300 :
  encode_min_width 300 = [130; 1; 44] /\
  encode_fixed_width 300 4 = Some [131; 0; 1; 44] /\
  decode [131; 0; 1; 44] = Ok (300, 4).
Proof. repeat split. Qed.

(** The boundary inputs of the decoder. *)
Example decode_boundaries :
  decode [0] = Ok (0, 1) /\
  decode [128] = MalformedLength /\
  decode [136; 255; 255; 255; 255; 255; 255; 255; 255] = MalformedLength /\
  decode [137; 0; 0; 0; 0; 0; 0; 0; 0; 0] = MalformedLength /\
  decode [130; 255] = MalformedLength.
Proof. repeat split. Qed.

End BERFacts.

(** ** Sequential access to the body *)

Module BodyFacts.
Import Partition Body.

Lemma total_size_app a b : total_size (a ++ b) = total_size a + total_size b.
Proof.
  unfold total_size. induction a as [| it a IH]; simpl; [reflexivity |].
  rewrite IH. lia.
Qed.

Lemma item_size_pos it : well_sized it -> 0 < item_size it.
Proof. unfold well_sized, item_size. lia. Qed.

Lemma total_size_nonneg l : Forall well_sized l -> 0 <= total_size l.
Proof.
  induction 1 as [| it l Hit _ IH]; simpl; [lia |].
  apply item_size_pos in Hit. lia.
Qed.

(** A KLV starts where the items before it end. *)
Lemma items_from_app pre : forall rest base,
  Forall well_sized pre ->
  items_from (pre ++ rest) base (base + total_size pre)
    = match rest with [] => None | _ => Some rest end.
Proof.
  induction pre as [| a pre IH]; intros rest base Hpre.
  - simpl. rewrite Z.add_0_r. destruct rest; [reflexivity |].
    simpl. now rewrite Z.eqb_refl.
  - apply Forall_cons in Hpre as [Ha Hpre].
    apply item_size_pos in Ha. pose proof (total_size_nonneg pre Hpre).
    cbn [app items_from total_size fold_right]. fold (total_size pre).
    destruct (Z.eqb_spec (base + (item_size a + total_size pre)) base); [lia |].
    destruct (Z.ltb_spec (base + (item_size a + total_size pre)) base); [lia |].
    rewrite Z.add_assoc. now apply IH.
Qed.

Lemma item_at_middle f pre it rest :
  Items f = pre ++ it :: rest -> Forall well_sized pre ->
  item_at f (total_size pre) = Some it.
Proof.
  intros Hf Hpre. unfold item_at. rewrite Hf.
  pose proof (items_from_app pre (it :: rest) 0 Hpre) as H.
  rewrite Z.add_0_l in H. now rewrite H.
Qed.

Lemma item_at_end f :
  Forall well_sized (Items f) -> item_at f (total_size (Items f)) = None.
Proof.
  intros Hf. unfold item_at.
  pose proof (items_from_app (Items f) [] 0 Hf) as H.
  rewrite Z.add_0_l, app_nil_r in H. now rewrite H.
Qed.

(** Once [_NextBodyLocation] is 0, every call returns the null
    cursor. *)
Lemma elements_done f k : forall p,
  _NextBodyLocation p = 0 -> elements k f p = replicate k None.
Proof.
  induction k as [| k IH]; intros p Hp; [reflexivity |].
  cbn [elements replicate]. unfold NextElement. rewrite Hp. simpl.
  f_equal. now apply IH.
Qed.

Lemma essence_not_fill it : is_essence it = true -> is_fill it = false.
Proof. unfold is_essence, is_fill. now destruct (Family it). Qed.

Lemma essence_not_pack it : is_essence it = true -> is_partition_pack it = false.
Proof. unfold is_essence, is_partition_pack. now destruct (Family it). Qed.

Lemma fill_not_essence it : is_fill it = true -> is_essence it = false.
Proof. unfold is_essence, is_fill. now destruct (Family it). Qed.

Lemma pack_not_fill it : is_partition_pack it = true -> is_fill it = false.
Proof. unfold is_partition_pack, is_fill. now destruct (Family it). Qed.

(** One call at an essence item: the cursor of the item, and the next
    location past it and past the fill that follows, if one does. *)
Lemma NextElement_essence f p pre e rest :
  Items f = pre ++ e :: rest -> Forall well_sized (Items f) ->
  0 < total_size pre -> is_essence e = true ->
  _NextBodyLocation p = total_size pre ->
  NextElement f p =
    (Some (cursor_at f (total_size pre) e),
     with_locations p (total_size pre)
       (match rest with
        | [] => 0
        | x :: _ => if is_fill x
                    then total_size pre + item_size e + item_size x
                    else total_size pre + item_size e
        end)).
Proof.
  intros Hf Hws Hpos He Hp.
  assert (Hpre : Forall well_sized pre).
  { rewrite Hf in Hws. now apply Forall_app in Hws as [Hpre _]. }
  assert (Hpre1 : Forall well_sized (pre ++ [e])).
  { rewrite Hf in Hws. apply Forall_app in Hws as [? He'].
    apply Forall_cons in He' as [? _]. apply Forall_app. split; [assumption |].
    now apply Forall_cons. }
  assert (Hsz : 0 < item_size e).
  { apply item_size_pos. rewrite Hf in Hws.
    apply Forall_app in Hws as [_ He']. now apply Forall_cons in He' as [? _]. }
  unfold NextElement. rewrite Hp.
  destruct (Z.eqb_spec (total_size pre) 0); [lia |].
  rewrite (item_at_middle f pre e rest Hf Hpre).
  rewrite (essence_not_pack e He). do 2 f_equal.
  unfold Skip. destruct (Z.eqb_spec (total_size pre) 0); [lia |].
  rewrite (item_at_middle f pre e rest Hf Hpre).
  unfold SkipFill.
  destruct (Z.eqb_spec (total_size pre + item_size e) 0); [lia |].
  assert (Hloc : total_size pre + item_size e = total_size (pre ++ [e])).
  { rewrite total_size_app. simpl. lia. }
  destruct rest as [| x rest'].
  - rewrite Hloc. replace (pre ++ [e]) with (Items f) by (now rewrite Hf).
    now rewrite item_at_end.
  - rewrite Hloc.
    rewrite (item_at_middle f (pre ++ [e]) x rest');
      [| now rewrite <- app_assoc | assumption].
    rewrite <- Hloc. reflexivity.
Qed.

(** One call at the end of the essence region. *)
Lemma NextElement_end f p pre tail :
  Items f = pre ++ tail -> Forall well_sized (Items f) ->
  region_end tail -> _NextBodyLocation p = total_size pre ->
  NextElement f p = (None, with_locations p (total_size pre) 0).
Proof.
  intros Hf Hws Hend Hp. unfold NextElement. rewrite Hp.
  destruct (Z.eqb_spec (total_size pre) 0); [reflexivity |].
  destruct tail as [| pk tl].
  - rewrite app_nil_r in Hf. rewrite <- Hf. now rewrite item_at_end.
  - assert (Hpre : Forall well_sized pre).
    { rewrite Hf in Hws. now apply Forall_app in Hws as [Hpre _]. }
    rewrite (item_at_middle f pre pk tl Hf Hpre).
    simpl in Hend. now rewrite Hend.
Qed.

Lemma Forall_well_sized_prefix (pre rest : list KLVItem) :
  Forall well_sized (pre ++ rest) -> Forall well_sized pre.
Proof. intros H. now apply Forall_app in H as [H _]. Qed.

(** From the start of a single-fill essence region, the calls return
    the cursors of its essence items in file order, then null. *)
Lemma elements_body f n : forall body pre tail p k,
  (length body <= n)%nat ->
  Items f = pre ++ body ++ tail -> Forall well_sized (Items f) ->
  0 < total_size pre ->
  single_fill body = true -> region_end tail ->
  _NextBodyLocation p = total_size pre ->
  elements (length (essence_cursors f body (total_size pre)) + k) f p
    = (Some <$> essence_cursors f body (total_size pre)) ++ replicate k None.
Proof.
  induction n as [| n IH]; intros body pre tail p k Hlen Hf Hws Hpos Hsf Hend Hp.
  - destruct body; [| simpl in Hlen; lia]. simpl.
    destruct k as [| k]; [reflexivity |].
    cbn [elements replicate].
    rewrite (NextElement_end f p pre tail Hf Hws Hend Hp). simpl.
    f_equal. now apply elements_done.
  - destruct body as [| e rest].
    { simpl. destruct k as [| k]; [reflexivity |].
      cbn [elements replicate].
      rewrite (NextElement_end f p pre tail Hf Hws Hend Hp). simpl.
      f_equal. now apply elements_done. }
    cbn [single_fill] in Hsf. apply andb_true_iff in Hsf as [He Hsf].
    cbn [essence_cursors]. rewrite He.
    cbn [length Nat.add elements fmap list_fmap app].
    assert (Hf' : Items f = pre ++ e :: (rest ++ tail)) by exact Hf.
    rewrite (NextElement_essence f p pre e (rest ++ tail) Hf' Hws Hpos He Hp).
    cbn [fst snd]. f_equal.
    assert (Hsz : 0 < item_size e).
    { apply item_size_pos. rewrite Hf' in Hws.
      apply Forall_app in Hws as [_ Hws]. now apply Forall_cons in Hws as [? _]. }
    assert (Hloc : total_size pre + item_size e = total_size (pre ++ [e])).
    { rewrite total_size_app. simpl. lia. }
    destruct rest as [| x rest'].
    + simpl app at 1. cbn [essence_cursors length Nat.add fmap list_fmap app].
      destruct tail as [| pk tl].
      * now apply elements_done.
      * simpl in Hend. rewrite (pack_not_fill pk Hend). rewrite Hloc.
        apply (IH [] (pre ++ [e]) (pk :: tl)); simpl; try lia; try assumption.
        rewrite Hf. now rewrite <- app_assoc.
    + cbn [app]. destruct (is_fill x) eqn:Hx.
      * cbn [essence_cursors]. rewrite (fill_not_essence x Hx).
        assert (Hxs : 0 < item_size x).
        { apply item_size_pos. rewrite Hf' in Hws.
          apply Forall_app in Hws as [_ Hws]. apply Forall_cons in Hws as [_ Hws].
          now apply Forall_cons in Hws as [? _]. }
        assert (Hloc2 : total_size pre + item_size e + item_size x
                        = total_size (pre ++ [e; x])).
        { rewrite total_size_app. simpl. lia. }
        rewrite Hloc2.
        apply (IH rest' (pre ++ [e; x]) tail); try assumption.
        -- simpl in Hlen. lia.
        -- rewrite Hf. now rewrite <- app_assoc.
        -- lia.
        -- reflexivity.
      * rewrite Hloc.
        apply (IH (x :: rest') (pre ++ [e]) tail); try assumption.
        -- simpl in *. lia.
        -- rewrite Hf. now rewrite <- app_assoc.
        -- lia.
        -- reflexivity.
Qed.

Lemma first_essence_header hdr : forall rest pos,
  forallb is_header hdr = true ->
  first_essence (hdr ++ rest) pos = first_essence rest (pos + total_size hdr).
Proof.
  induction hdr as [| h hdr IH]; intros rest pos Hh; simpl.
  - now rewrite Z.add_0_r.
  - simpl in Hh. apply andb_true_iff in Hh as [Hh1 Hh2].
    rewrite Hh1, IH by assumption. fold (total_size hdr). f_equal. lia.
Qed.

Lemma first_essence_body body tail pos :
  single_fill body = true -> region_end tail ->
  first_essence (body ++ tail) pos = match body with [] => 0 | _ => pos end.
Proof.
  intros Hsf Hend. destruct body as [| e rest].
  - destruct tail as [| pk tl]; [reflexivity |]. simpl in *.
    unfold is_header, is_essence, is_partition_pack in *.
    now destruct (Family pk).
  - simpl in Hsf. apply andb_true_iff in Hsf as [He _]. simpl.
    unfold is_header, is_essence in *. now destruct (Family e).
Qed.

(** The cursors carry key and length of the essence items, and no
    value data. *)
Lemma essence_cursors_items f body : forall pos,
  (fun c => (KLV.TheUL c, KLV.ValueLength c, KLV.Data c)) <$> essence_cursors f body pos
    = (fun it => (Some (Key it), ItemLength it, [])) <$> List.filter is_essence body.
Proof.
  induction body as [| it body IH]; intros pos; simpl; [reflexivity |].
  destruct (is_essence it); simpl; now rewrite IH.
Qed.

Lemma StartElements_location f p pre pack hdr body tail :
  Items f = pre ++ pack :: hdr ++ body ++ tail ->
  Forall well_sized (Items f) ->
  PackLocation p = total_size pre ->
  is_partition_pack pack = true ->
  forallb is_header hdr = true ->
  single_fill body = true -> region_end tail ->
  StartElements f p =
    let loc := match body with
               | [] => 0
               | _ => total_size (pre ++ pack :: hdr)
               end in
    (negb (loc =? 0), with_locations p loc loc).
Proof.
  intros Hf Hws Hp Hpack Hhdr Hsf Hend. unfold StartElements.
  rewrite Hp, Hf.
  pose proof (items_from_app pre (pack :: hdr ++ body ++ tail) 0) as Hfrom.
  rewrite Z.add_0_l in Hfrom. rewrite Hfrom
    by (rewrite Hf in Hws; now apply Forall_well_sized_prefix in Hws).
  rewrite Hpack, first_essence_header, first_essence_body by assumption.
  replace (total_size (pre ++ pack :: hdr))
    with (total_size pre + item_size pack + total_size hdr)
    by (rewrite total_size_app; simpl; fold (total_size hdr); lia).
  reflexivity.
Qed.

(** C7: in a file where this partition's pack and header items are
    followed by an essence region of essence items with at most one
    fill after each, and then by a partition pack or the end of the
    file, [StartElements] followed by calls of [NextElement] yields the
    cursors of the essence items in file order, each with key and
    length and no value data, and the null cursor from then on;
    [SkipFill] at a fill that is followed by another fill stops at the
    second one. *)
Theorem NextElement_iterates f p pre pack hdr body tail :
  Items f = pre ++ pack :: hdr ++ body ++ tail ->
  Forall well_sized (Items f) ->
  PackLocation p = total_size pre ->
  is_partition_pack pack = true ->
  forallb is_header hdr = true ->
  single_fill body = true ->
  region_end tail ->
  let cursors := essence_cursors f body (total_size (pre ++ pack :: hdr)) in
  (forall k, elements (length cursors + k) f (snd (StartElements f p))
             = (Some <$> cursors) ++ replicate k None) /\
  (fun c => (KLV.TheUL c, KLV.ValueLength c, KLV.Data c)) <$> cursors
    = (fun it => (Some (Key it), ItemLength it, [])) <$> List.filter is_essence body /\
  (forall start fl1 fl2,
     start <> 0 -> item_at f start = Some fl1 -> is_fill fl1 = true ->
     item_at f (start + item_size fl1) = Some fl2 -> is_fill fl2 = true ->
     SkipFill f start = start + item_size fl1 /\
     item_at f (SkipFill f start) = Some fl2).
Proof.
  intros Hf Hws Hp Hpack Hhdr Hsf Hend cursors. split; [| split].
  - intros k.
    rewrite (StartElements_location f p pre pack hdr body tail) by assumption.
    cbn [snd]. subst cursors. destruct body as [| e rest].
    + now apply elements_done.
    + set (body := e :: rest) in *.
      assert (Hhead : Forall well_sized (pre ++ pack :: hdr)).
      { rewrite Hf in Hws.
        replace (pre ++ pack :: hdr ++ body ++ tail)
          with ((pre ++ pack :: hdr) ++ body ++ tail) in Hws
          by (now rewrite <- app_assoc).
        now apply Forall_well_sized_prefix in Hws. }
      assert (Hpos : 0 < total_size (pre ++ pack :: hdr)).
      { rewrite total_size_app.
        apply Forall_app in Hhead as [Hpre Hph].
        apply Forall_cons in Hph as [Hpk Hh].
        apply item_size_pos in Hpk.
        pose proof (total_size_nonneg pre Hpre).
        pose proof (total_size_nonneg hdr Hh).
        simpl. fold (total_size hdr). lia. }
      apply (elements_body f (length body) body (pre ++ pack :: hdr) tail);
        try assumption.
      * lia.
      * rewrite Hf. now rewrite <- app_assoc.
      * reflexivity.
  - apply essence_cursors_items.
  - intros start fl1 fl2 Hstart H1 Hf1 H2 Hf2.
    assert (Hs : SkipFill f start = start + item_size fl1).
    { unfold SkipFill. destruct (Z.eqb_spec start 0); [lia |].
      now rewrite H1, Hf1. }
    rewrite Hs. auto.
Qed.

Lemma NextElement_iterates_witness :
  elements 3 scenario_file (snd (StartElements scenario_file fresh))
    = [Some (cursor_at scenario_file 120 item_A);
       Some (cursor_at scenario_file 1157 item_B);
       None].
Proof.
  apply (proj1 (NextElement_iterates scenario_file fresh
                  [] the_pack [] [item_A; fill_17; item_B] []
                  eq_refl
                  ltac:(repeat constructor; simpl; lia)
                  eq_refl eq_refl eq_refl eq_refl I) 1%nat).
Defined.

(** With two fills in a row the second one comes back as an element. *)
Example two_fills_in_a_row :
  let f := mkImage (KLV.mkFile "fills.mxf" 0)
             [the_pack; item_A; fill_17; fill_17; item_B] in
  List.map (option_map KLV.TheUL) (elements 4 f (snd (StartElements f fresh)))
    = [Some (Some (Key item_A)); Some (Some (Key fill_17));
       Some (Some (Key item_B)); None].
Proof. reflexivity. Qed.

End BodyFacts.

(** ** KLV objects: sequences of setters and writes of the chunk *)

Module KLVMoreFacts.
Import Ints KLV KLVMore.

Lemma run_snoc k ops o : run k (ops ++ [o]) = step (run k ops) o.
Proof. unfold run. now rewrite fold_left_app. Qed.

Lemma run_cons k o ops : run k (o :: ops) = run (step k o) ops.
Proof. reflexivity. Qed.

Lemma run_Data ops : forall k, Data (run k ops) = Data k.
Proof.
  induction ops as [| o ops IH]; intros k; [reflexivity |].
  rewrite run_cons, IH. apply KLVFacts.step_Data.
Qed.

Lemma step_Source_KLSize k o : KLSize (Source (step k o)) = KLSize (Source k).
Proof.
  destruct o; simpl; try reflexivity.
  unfold SetSource. now destruct (negb _).
Qed.

(** X1: no sequence of the inline setters changes the source KL size
    ("you cannot change the source KLSize"), so [GetKLSize] keeps
    returning a known source KL size whatever is called. *)
Theorem Source_KLSize_frozen k ops :
  KLSize (Source (run k ops)) = KLSize (Source k) /\
  GetKLSize (run k ops)
    = (if KLSize (Source k) >=? 0 then GetKLSize k else KLSize (Dest (run k ops))).
Proof.
  assert (H : KLSize (Source (run k ops)) = KLSize (Source k)).
  { revert k. induction ops as [| o ops IH]; intros k; [reflexivity |].
    rewrite run_cons, IH. apply step_Source_KLSize. }
  split; [exact H |]. unfold GetKLSize. rewrite H.
  now destruct (KLSize (Source k) >=? 0).
Qed.

Lemma step_Dest_fixed k o :
  Valid (Dest k) = true -> writes_Dest o = false -> Dest (step k o) = Dest k.
Proof.
  intros Hv Ho. destruct o; simpl in *; try reflexivity; try discriminate.
  unfold SetSource. simpl. now rewrite Hv.
Qed.

Lemma run_Dest_fixed ops : forall k,
  Valid (Dest k) = true -> Forall (fun o => writes_Dest o = false) ops ->
  Dest (run k ops) = Dest k.
Proof.
  induction ops as [| o ops IH]; intros k Hv Hops; [reflexivity |].
  apply Forall_cons in Hops as [Ho Hops].
  rewrite run_cons, IH; [now apply step_Dest_fixed | | exact Hops].
  now rewrite step_Dest_fixed.
Qed.

(** X2: the destination follows the source once only.  A valid
    destination is left alone by every sequence of setters other than
    [SetDestination], [SetKLSize] and [SetLength]; on a cursor without
    destination the first [SetSource] makes the destination a copy of
    its source record, and the copy stays through every such sequence,
    later calls of [SetSource] included. *)
Theorem Dest_follows_Source_once k ops :
  Forall (fun o => writes_Dest o = false) ops ->
  (Valid (Dest k) = true -> Dest (run k ops) = Dest k) /\
  (forall F L, Valid (Dest k) = false ->
     Dest (run (SetSource k F L) ops) = Source (SetSource k F L)).
Proof.
  intros Hops. split.
  - intros Hv. now apply run_Dest_fixed.
  - intros F L Hv.
    assert (Hd : Dest (SetSource k F L) = Source (SetSource k F L)).
    { unfold SetSource. simpl. rewrite Hv. simpl. apply KLVFacts.KLVInfo_assign_eq. }
    rewrite run_Dest_fixed; [exact Hd | | exact Hops].
    rewrite Hd. unfold SetSource. simpl. now rewrite Hv.
Qed.

(** A second source, 32 bytes into another file, does not move the
    destination. *)
Lemma Dest_follows_Source_once_witness :
  Dest (run (SetSource four_bytes (mkFile "in.mxf" 100) (-1))
          [OpSetSource (mkFile "other.mxf" 7) 32; OpSetDataBase 0])
    = Source (SetSource four_bytes (mkFile "in.mxf" 100) (-1)).
Proof.
  apply (proj2 (Dest_follows_Source_once four_bytes
                  [OpSetSource (mkFile "other.mxf" 7) 32; OpSetDataBase 0]
                  ltac:(repeat constructor))
           (mkFile "in.mxf" 100) (-1) eq_refl).
Defined.

Lemma step_Valid k o :
  (Valid (Source k) = true -> Valid (Source (step k o)) = true) /\
  (Valid (Dest k) = true -> Valid (Dest (step k o)) = true) /\
  (is_Some (File (Source k)) -> is_Some (File (Source (step k o)))).
Proof.
  destruct o; simpl; try (intuition eauto; fail).
  unfold SetSource. simpl. destruct (Valid (Dest k)) eqn:E; simpl; intuition eauto.
Qed.

Lemma run_Valid ops : forall k,
  (Valid (Source k) = true -> Valid (Source (run k ops)) = true) /\
  (Valid (Dest k) = true -> Valid (Dest (run k ops)) = true) /\
  (is_Some (File (Source k)) -> is_Some (File (Source (run k ops)))).
Proof.
  induction ops as [| o ops IH]; intros k; [tauto |].
  rewrite run_cons. destruct (IH (step k o)) as (I1 & I2 & I3).
  destruct (step_Valid k o) as (S1 & S2 & S3). tauto.
Qed.

(** X3: no sequence of the inline setters un-sets a record: a valid
    source stays valid and a valid destination stays valid; after
    [SetSource] both are valid for good, after [SetDestination] the
    destination is. *)
Theorem Valid_never_cleared k ops :
  (Valid (Source k) = true -> Valid (Source (run k ops)) = true) /\
  (Valid (Dest k) = true -> Valid (Dest (run k ops)) = true) /\
  (forall F L, Valid (Source (run (SetSource k F L) ops)) = true /\
               Valid (Dest (run (SetSource k F L) ops)) = true) /\
  (forall F L, Valid (Dest (run (SetDestination k F L) ops)) = true).
Proof.
  destruct (run_Valid ops k) as (H1 & H2 & _).
  split; [exact H1 | split; [exact H2 | split]].
  - intros F L. destruct (run_Valid ops (SetSource k F L)) as (I1 & I2 & _).
    split; [apply I1 | apply I2]; unfold SetSource; simpl;
      destruct (Valid (Dest k)) eqn:E; simpl; auto.
  - intros F L. now apply (run_Valid ops (SetDestination k F L)).
Qed.

Lemma step_lengths_agree k o : lengths_agree k -> lengths_agree (step k o).
Proof.
  unfold lengths_agree. intros [Hs Hd].
  destruct o; simpl; try (split; assumption); try (split; reflexivity).
  unfold SetSource. simpl. destruct (Valid (Dest k)); simpl; split; assumption.
Qed.

Lemma step_ValueLength k o :
  is_SetLength o = false -> ValueLength (step k o) = ValueLength k.
Proof.
  destruct o; simpl; try reflexivity; try discriminate.
  intros _. unfold SetSource. now destruct (negb _).
Qed.

(** X4: [SetLength] makes the value length and the outer lengths of
    both records equal, and every inline setter keeps them equal; an
    earlier [SetLength] shows in [GetLength] until the next one. *)
Theorem OuterLength_is_ValueLength k l ops :
  lengths_agree (run (SetLength k l) ops) /\
  (lengths_agree k -> lengths_agree (run k ops)) /\
  (Forall (fun o => is_SetLength o = false) ops ->
   GetLength (run (SetLength k l) ops) = l).
Proof.
  assert (Hrun : forall ops k, lengths_agree k -> lengths_agree (run k ops)).
  { clear. induction ops as [| o ops IH]; intros k Hk; [exact Hk |].
    rewrite run_cons. apply IH, step_lengths_agree, Hk. }
  split; [| split].
  - apply Hrun. split; reflexivity.
  - apply Hrun.
  - unfold GetLength. generalize (SetLength k l) (eq_refl : ValueLength (SetLength k l) = l).
    induction ops as [| o ops IH]; intros k' Hk' Hops; [exact Hk' |].
    apply Forall_cons in Hops as [Ho Hops].
    rewrite run_cons. apply IH; [| exact Hops].
    now rewrite step_ValueLength.
Qed.

(** X5: on a cursor whose destination is not valid, a KL size given to
    [SetKLSize] is lost at the next [SetSource], which overwrites the
    destination record; with a valid destination the two calls
    commute. *)
Theorem SetKLSize_then_SetSource k n F L :
  SetSource (SetKLSize k n) F L
    = (if Valid (Dest k) then SetKLSize (SetSource k F L) n else SetSource k F L).
Proof.
  destruct k as [s [fd od old kld vd] u vl dt db rh].
  unfold SetSource, SetKLSize. simpl. destruct vd; reflexivity.
Qed.

(** X6: [SetSource] and [SetDestination] can be called in either order
    exactly when the destination is already valid or the two records
    agree on KL size and outer length; otherwise the order decides
    whether the destination inherits them from the source. *)
Theorem SetSource_SetDestination_order k F L G M :
  SetDestination (SetSource k F L) G M = SetSource (SetDestination k G M) F L
  <-> Valid (Dest k) = true \/
      (KLSize (Source k) = KLSize (Dest k) /\ OuterLength (Source k) = OuterLength (Dest k)).
Proof.
  destruct k as [[fs os ols kls vs] [fd od old kld vd] u vl dt db rh].
  unfold SetSource, SetDestination. simpl.
  destruct vd; simpl.
  - split; [auto | reflexivity].
  - split.
    + intros [= -> ->]. auto.
    + intros [Hv | [-> ->]]; [discriminate | reflexivity].
Qed.

(** X12: [GetSourceLocation] says "KLVObject created in memory" exactly
    when the source file pointer is null: never after [SetSource] with
    a file, whatever setters with files follow, and still after
    [SetSource(NULL, Location)] with [Location >= 0], which stores the
    null pointer and marks the source valid. *)
Theorem GetSourceLocation_in_memory hex src k :
  (GetSourceLocation hex src k = "KLVObject created in memory"%string
     <-> File (Source k) = None) /\
  (forall F L ops,
     SetSourcePtr k (Some F) L = Some (SetSource k F L) /\
     GetSourceLocation hex src (run (SetSource k F L) ops)
       <> "KLVObject created in memory"%string) /\
  (forall L, 0 <= L ->
     exists k', SetSourcePtr k None L = Some k' /\
                Valid (Source k') = true /\
                GetSourceLocation hex src k' = "KLVObject created in memory"%string) /\
  (forall L, L < 0 -> SetSourcePtr k None L = None).
Proof.
  assert (Hiff : forall k', GetSourceLocation hex src k' = "KLVObject created in memory"%string
                            <-> File (Source k') = None).
  { intros k'. unfold GetSourceLocation. destruct (File (Source k')).
    - split; [| discriminate]. simpl. discriminate.
    - tauto. }
  split; [apply Hiff | split; [| split]].
  - intros F L ops. split; [reflexivity |]. intros H. apply Hiff in H.
    destruct (run_Valid ops (SetSource k F L)) as (_ & _ & Hf).
    destruct Hf as [f Hf].
    + unfold SetSource. simpl. destruct (Valid (Dest k)); simpl; eauto.
    + congruence.
  - intros L HL. unfold SetSourcePtr.
    destruct (Z.ltb_spec L 0); [lia |].
    eexists. split; [reflexivity |].
    split; [| apply Hiff]; simpl; destruct (Valid (Dest k)); reflexivity.
  - intros L HL. unfold SetSourcePtr.
    destruct (Z.ltb_spec L 0); [reflexivity | lia].
Qed.

(** *** Writes of the chunk *)

(** X11: what [WriteDataFromTo] hands to the base write depends on the
    chunk alone: no sequence of the inline setters, [SetLength] and
    [SetDataBase] included, changes it. *)
Theorem WriteDataFromTo_ignores_setters w k ops Offset_ Start Size_ :
  WriteDataFromTo w (run k ops) Offset_ Start Size_
    = WriteDataFromTo w k Offset_ Start Size_ /\
  passed_bytes (Data (run k ops)) (WriteDataFromTo w (run k ops) Offset_ Start Size_)
    = passed_bytes (Data k) (WriteDataFromTo w k Offset_ Start Size_).
Proof.
  assert (H : WriteDataFromTo w (run k ops) Offset_ Start Size_
              = WriteDataFromTo w k Offset_ Start Size_).
  { unfold WriteDataFromTo, BytesToWrite. now rewrite run_Data. }
  split; [exact H |]. now rewrite H, run_Data.
Qed.

(** The call made for a start inside the chunk and a size that is not
    negative as a [Length]. *)
Lemma WriteDataFromTo_in_chunk w k Offset_ Start Size_ :
  w = 4 \/ w = 8 ->
  is_size_t w (Size (Data k)) -> Size (Data k) < 2 ^ 63 ->
  0 <= Start <= Size (Data k) ->
  is_size_t w Size_ -> Size_ < 2 ^ 63 ->
  WriteDataFromTo w k Offset_ Start Size_
    = BaseWrite Start Offset_ (BytesToWrite k Start Size_) /\
  0 <= BytesToWrite k Start Size_ <= Size (Data k) - Start.
Proof.
  intros Hw HS HS63 HStart HSz HSz63.
  pose proof (KLVFacts.BytesToWrite_clamped k Start Size_ HS63 HStart
                ltac:(unfold is_size_t in *; lia)) as Hn.
  assert (Hr : 0 <= BytesToWrite k Start Size_ <= Size (Data k) - Start).
  { rewrite Hn. destruct (Z.eqb_spec Size_ 0); unfold is_size_t in *; lia. }
  split; [| exact Hr]. unfold WriteDataFromTo.
  rewrite (KLVFacts.to_size_t_id w (BytesToWrite k Start Size_))
    by (unfold is_size_t in *; lia).
  destruct Hw as [-> | ->]; [| reflexivity].
  unfold is_size_t in HS. rewrite KLVFacts.size_t_modulus_4 in HS.
  destruct (Z.gtb_spec (BytesToWrite k Start Size_) 4294967295); [lia | reflexivity].
Qed.

Lemma passed_bytes_in_chunk d Start Offset_ n :
  0 <= Start -> 0 <= n -> Start + n <= Size d ->
  passed_bytes d (BaseWrite Start Offset_ n)
    = Some (take (Z.to_nat n) (drop (Z.to_nat Start) d)).
Proof.
  intros H1 H2 H3. unfold passed_bytes.
  destruct (Z.leb_spec 0 Start); [| lia].
  destruct (Z.leb_spec 0 n); [| lia].
  destruct (Z.leb_spec (Start + n) (Size d)); [reflexivity | lia].
Qed.

(** X9: a chunk written in two calls, the first [n] bytes and then
    "all available" from [n] on to the offset [n] bytes further, goes
    to the base write whole and in order. *)
Theorem WriteDataFromTo_split w k Offset_ n :
  w = 4 \/ w = 8 ->
  is_size_t w (Size (Data k)) -> Size (Data k) < 2 ^ 63 ->
  0 < n <= Size (Data k) ->
  WriteDataFromTo w k Offset_ 0 n = BaseWrite 0 Offset_ n /\
  WriteDataFromTo w k (Offset_ + n) n 0
    = BaseWrite n (Offset_ + n) (Size (Data k) - n) /\
  exists a b,
    passed_bytes (Data k) (WriteDataFromTo w k Offset_ 0 n) = Some a /\
    passed_bytes (Data k) (WriteDataFromTo w k (Offset_ + n) n 0) = Some b /\
    a ++ b = Data k.
Proof.
  intros Hw HS HS63 Hn.
  assert (Hzero : is_size_t w 0).
  { unfold is_size_t, size_t_modulus. destruct Hw as [-> | ->]; simpl; lia. }
  destruct (WriteDataFromTo_in_chunk w k Offset_ 0 n Hw HS HS63
              ltac:(lia) ltac:(unfold is_size_t in *; lia) ltac:(lia)) as [H1 _].
  destruct (WriteDataFromTo_in_chunk w k (Offset_ + n) n 0 Hw HS HS63
              ltac:(lia) Hzero ltac:(lia)) as [H2 _].
  rewrite (KLVFacts.BytesToWrite_clamped k 0 n) in H1 by lia.
  rewrite (KLVFacts.BytesToWrite_clamped k n 0) in H2 by lia.
  destruct (Z.eqb_spec n 0); [lia |]. simpl in H2.
  rewrite Z.sub_0_r, Z.min_l in H1 by lia.
  split; [exact H1 | split; [exact H2 |]].
  rewrite H1, H2.
  rewrite !passed_bytes_in_chunk by lia.
  eexists _, _. split; [reflexivity | split; [reflexivity |]].
  simpl drop at 1.
  rewrite (take_ge (drop (Z.to_nat n) (Data k))).
  - apply take_drop.
  - rewrite length_drop. unfold Size. lia.
Qed.

Lemma WriteDataFromTo_split_witness :
  exists a b,
    passed_bytes (Data four_bytes) (WriteDataFromTo 4 four_bytes 100 0 3) = Some a /\
    passed_bytes (Data four_bytes) (WriteDataFromTo 4 four_bytes (100 + 3) 3 0) = Some b /\
    a ++ b = Data four_bytes.
Proof.
  apply (WriteDataFromTo_split 4 four_bytes 100 3);
    vm_compute; intuition congruence.
Defined.

(** X14: on a cursor that satisfies the chunk invariant, writing any
    part of the chunk back to its own place in the value, offset
    [DataBase + Start], stays inside the value field. *)
Theorem WriteDataFromTo_inside_value w k Start Size_ :
  w = 4 \/ w = 8 ->
  is_size_t w (Size (Data k)) -> Size (Data k) < 2 ^ 63 ->
  0 <= Start <= Size (Data k) ->
  is_size_t w Size_ -> Size_ < 2 ^ 63 ->
  chunk_invariant k ->
  exists n,
    WriteDataFromTo w k (DataBase k + Start) Start Size_
      = BaseWrite Start (DataBase k + Start) n /\
    0 <= n /\ 0 <= DataBase k + Start /\ DataBase k + Start + n <= ValueLength k.
Proof.
  intros Hw HS HS63 HStart HSz HSz63 [Hb Hv].
  destruct (WriteDataFromTo_in_chunk w k (DataBase k + Start) Start Size_
              Hw HS HS63 HStart HSz HSz63) as [H Hr].
  exists (BytesToWrite k Start Size_). split; [exact H | lia].
Qed.

Lemma WriteDataFromTo_inside_value_witness :
  exists n,
    WriteDataFromTo 8 (SetLength (SetDataBase four_bytes 2) 6) (2 + 1) 1 2
      = BaseWrite 1 (2 + 1) n /\
    0 <= n /\ 0 <= 2 + 1 /\ 2 + 1 + n <= 6.
Proof.
  apply (WriteDataFromTo_inside_value 8 (SetLength (SetDataBase four_bytes 2) 6) 1 2);
    vm_compute; intuition congruence.
Defined.

(** A [size_t] of 8 bytes with its top bit set, read as a [Length]. *)
Lemma to_Int64_top_bit z : 2 ^ 63 <= z < 2 ^ 64 -> to_Int64 z = z - 2 ^ 64.
Proof.
  intros Hz. unfold to_Int64.
  rewrite <- (Z.mod_unique (z + 2 ^ 63) (2 ^ 64) 1 (z - 2 ^ 63)); lia.
Qed.

(** A negative [Length] of no more than the modulus, as a [size_t]. *)
Lemma to_size_t_negative w z :
  w = 4 \/ w = 8 -> - size_t_modulus w <= z < 0 -> to_size_t w z = size_t_modulus w + z.
Proof.
  intros Hw Hz. unfold to_size_t.
  assert (0 < size_t_modulus w) by (destruct Hw as [-> | ->]; reflexivity).
  symmetry. apply (Z.mod_unique z (size_t_modulus w) (-1)); lia.
Qed.

(** X7: with an 8-byte [size_t], every requested size of 2^63 or more,
    the default [(size_t)-1] among them, is negative as a [Length],
    replaces the count of available bytes and reaches the base write
    unclamped: the call reads past the end of the chunk. *)
Theorem WriteDataFromTo_8_top_bit k Offset_ Start Size_ :
  Size (Data k) < 2 ^ 63 ->
  0 <= Start <= Size (Data k) ->
  2 ^ 63 <= Size_ < 2 ^ 64 ->
  WriteDataFromTo 8 k Offset_ Start Size_ = BaseWrite Start Offset_ Size_ /\
  passed_bytes (Data k) (WriteDataFromTo 8 k Offset_ Start Size_) = None.
Proof.
  intros HS HStart HSz.
  assert (Hn : BytesToWrite k Start Size_ = Size_ - 2 ^ 64).
  { unfold BytesToWrite.
    rewrite (KLVFacts.to_Int64_id (Size (Data k) - Start)) by (unfold is_Int64; lia).
    rewrite to_Int64_top_bit by lia.
    destruct (Z.gtb_spec Size_ 0); [| lia].
    destruct (Z.ltb_spec (Size_ - 2 ^ 64) (Size (Data k) - Start)); [reflexivity | lia]. }
  assert (Hcall : WriteDataFromTo 8 k Offset_ Start Size_ = BaseWrite Start Offset_ Size_).
  { unfold WriteDataFromTo. rewrite Hn. simpl andb. cbv iota. f_equal.
    rewrite (to_size_t_negative 8) by (rewrite ?KLVFacts.size_t_modulus_8; lia).
    rewrite KLVFacts.size_t_modulus_8. lia. }
  split; [exact Hcall |]. rewrite Hcall. unfold passed_bytes.
  destruct (Z.leb_spec (Start + Size_) (Size (Data k))); [lia |].
  now rewrite andb_false_r.
Qed.

Lemma WriteDataFromTo_8_top_bit_witness :
  WriteDataFromTo 8 four_bytes 0 0 (size_t_minus_1 8)
    = BaseWrite 0 0 (size_t_minus_1 8).
Proof.
  apply (proj1 (WriteDataFromTo_8_top_bit four_bytes 0 0 (size_t_minus_1 8)
                  ltac:(vm_compute; reflexivity)
                  ltac:(vm_compute; intuition congruence)
                  ltac:(vm_compute; intuition congruence))).
Defined.

(** X8: [Start] is not checked against the chunk.  For a start past
    the end of the chunk, within what a [size_t] holds, the count of
    available bytes is negative, no request replaces it, no error is
    raised, and it reaches the base write wrapped to a [size_t], as
    [2^(8 * sizeof(size_t)) - (Start - Data.Size)], which is positive,
    with a pointer past the end of the buffer. *)
Theorem WriteDataFromTo_start_past_end w k Offset_ Start Size_ :
  w = 4 \/ w = 8 ->
  is_size_t w (Size (Data k)) -> Size (Data k) < 2 ^ 63 ->
  Size (Data k) < Start -> Start < size_t_modulus w -> Start < 2 ^ 63 ->
  is_size_t w Size_ -> Size_ < 2 ^ 63 ->
  WriteDataFromTo w k Offset_ Start Size_
    = BaseWrite Start Offset_ (size_t_modulus w - (Start - Size (Data k))) /\
  0 < size_t_modulus w - (Start - Size (Data k)) /\
  passed_bytes (Data k) (WriteDataFromTo w k Offset_ Start Size_) = None.
Proof.
  intros Hw HS HS63 HStart Hmod HStart63 HSz HSz63.
  assert (Hgap : Start - Size (Data k) < size_t_modulus w)
    by (unfold is_size_t in HS; lia).
  assert (Hn : BytesToWrite k Start Size_ = Size (Data k) - Start).
  { unfold BytesToWrite. unfold is_size_t in *.
    rewrite (KLVFacts.to_Int64_id (Size (Data k) - Start)) by (unfold is_Int64; lia).
    rewrite (KLVFacts.to_Int64_id Size_) by (unfold is_Int64; lia).
    destruct (Z.ltb_spec Size_ (Size (Data k) - Start)); [lia |].
    now rewrite andb_false_r. }
  assert (Hcall : WriteDataFromTo w k Offset_ Start Size_
                  = BaseWrite Start Offset_ (size_t_modulus w - (Start - Size (Data k)))).
  { unfold WriteDataFromTo. rewrite Hn.
    destruct (Z.gtb_spec (Size (Data k) - Start) 4294967295); [lia |].
    rewrite andb_false_r. f_equal.
    rewrite (to_size_t_negative w) by (assumption || lia). lia. }
  split; [exact Hcall | split; [lia |]].
  rewrite Hcall. unfold passed_bytes.
  destruct (Z.leb_spec (Start + (size_t_modulus w - (Start - Size (Data k))))
              (Size (Data k))); [lia |].
  now rewrite andb_false_r.
Qed.

Lemma WriteDataFromTo_start_past_end_witness :
  WriteDataFromTo 4 four_bytes 0 5 2 = BaseWrite 5 0 (size_t_modulus 4 - (5 - 4)).
Proof.
  apply (WriteDataFromTo_start_past_end 4 four_bytes 0 5 2);
    vm_compute; intuition congruence.
Defined.

(** X10: with a 4-byte [size_t] the 4 GByte check fires only for a
    request of 0 bytes ("all available") from a start more than
    4 GBytes before the end of the chunk; it never fires for a start at
    or after the beginning of the chunk. *)
Theorem WriteDataFromTo_4_check k Offset_ Start Size_ :
  is_size_t 4 (Size (Data k)) -> is_size_t 4 Size_ ->
  - 2 ^ 62 <= Start < 2 ^ 63 ->
  (WriteDataFromTo 4 k Offset_ Start Size_ = ChunkTooLarge
     <-> Size_ = 0 /\ Size (Data k) - Start > 4294967295) /\
  (0 <= Start -> WriteDataFromTo 4 k Offset_ Start Size_ <> ChunkTooLarge).
Proof.
  intros HS HSz HStart.
  unfold is_size_t in *. rewrite KLVFacts.size_t_modulus_4 in *.
  assert (Hiff : WriteDataFromTo 4 k Offset_ Start Size_ = ChunkTooLarge
                 <-> Size_ = 0 /\ Size (Data k) - Start > 4294967295).
  { unfold WriteDataFromTo, BytesToWrite.
    rewrite (KLVFacts.to_Int64_id (Size (Data k) - Start)) by (unfold is_Int64; lia).
    rewrite (KLVFacts.to_Int64_id Size_) by (unfold is_Int64; lia).
    simpl andb at 2.
    destruct (Z.gtb_spec Size_ 0);
      destruct (Z.ltb_spec Size_ (Size (Data k) - Start)); simpl andb; cbv iota.
    - destruct (Z.gtb_spec Size_ 4294967295); [lia |].
      split; [discriminate | lia].
    - destruct (Z.gtb_spec (Size (Data k) - Start) 4294967295); [lia |].
      split; [discriminate | lia].
    - destruct (Z.gtb_spec (Size (Data k) - Start) 4294967295).
      + split; [lia | reflexivity].
      + split; [discriminate | lia].
    - destruct (Z.gtb_spec (Size (Data k) - Start) 4294967295); [lia |].
      split; [discriminate | lia]. }
  split; [exact Hiff |].
  intros H0 Hc. apply Hiff in Hc. lia.
Qed.

Lemma WriteDataFromTo_4_check_witness :
  WriteDataFromTo 4 four_bytes 0 0 (size_t_minus_1 4) <> ChunkTooLarge.
Proof.
  apply (proj2 (WriteDataFromTo_4_check four_bytes 0 0 (size_t_minus_1 4)
                  ltac:(vm_compute; intuition congruence)
                  ltac:(vm_compute; intuition congruence)
                  ltac:(vm_compute; intuition congruence))).
  vm_compute. congruence.
Defined.

(** X13: [WriteData] and [WriteDataTo] asked for 0 bytes, or for at
    least as many as the chunk holds, hand the whole chunk to the base
    write, from its first byte; [WriteData] always addresses offset 0
    of the value, wherever [DataBase] says the chunk came from. *)
Theorem WriteData_whole_chunk w k Offset_ Size_ b :
  w = 4 \/ w = 8 ->
  is_size_t w (Size (Data k)) -> Size (Data k) < 2 ^ 63 ->
  is_size_t w Size_ -> Size_ < 2 ^ 63 ->
  Size_ = 0 \/ Size (Data k) <= Size_ ->
  WriteData w k Size_ = BaseWrite 0 0 (Size (Data k)) /\
  WriteData w (SetDataBase k b) Size_ = BaseWrite 0 0 (Size (Data k)) /\
  WriteDataTo w k Offset_ Size_ = BaseWrite 0 Offset_ (Size (Data k)) /\
  passed_bytes (Data k) (WriteData w k Size_) = Some (Data k) /\
  passed_bytes (Data k) (WriteDataTo w k Offset_ Size_) = Some (Data k).
Proof.
  intros Hw HS HS63 HSz HSz63 Hall.
  pose proof (KLVFacts.Size_nonneg (Data k)) as H0.
  assert (Hn : BytesToWrite k 0 Size_ = Size (Data k)).
  { rewrite KLVFacts.BytesToWrite_clamped by (unfold is_size_t in *; lia).
    destruct (Z.eqb_spec Size_ 0); lia. }
  assert (Hcall : forall o, WriteDataFromTo w k o 0 Size_ = BaseWrite 0 o (Size (Data k))).
  { intros o.
    destruct (WriteDataFromTo_in_chunk w k o 0 Size_ Hw HS HS63
                ltac:(lia) HSz HSz63) as [H _].
    now rewrite Hn in H. }
  assert (Hall_bytes : forall o,
            passed_bytes (Data k) (BaseWrite 0 o (Size (Data k))) = Some (Data k)).
  { intros o. rewrite passed_bytes_in_chunk by lia. simpl drop.
    f_equal. apply take_ge. unfold Size. lia. }
  unfold WriteData, WriteDataTo. rewrite !Hcall.
  repeat split; try apply Hall_bytes.
  unfold WriteDataFromTo, BytesToWrite. simpl Data.
  fold (BytesToWrite k 0 Size_). fold (WriteDataFromTo w k 0 0 Size_).
  apply Hcall.
Qed.

Lemma WriteData_whole_chunk_witness :
  passed_bytes (Data four_bytes) (WriteData 4 four_bytes (size_t_minus_1 4))
    = Some (Data four_bytes).
Proof.
  apply (WriteData_whole_chunk 4 four_bytes 0 (size_t_minus_1 4) 0);
    vm_compute; intuition congruence.
Defined.

Lemma step_KLSize_unknown k o :
  is_SetKLSize o = false ->
  KLSize (Source k) < 0 /\ KLSize (Dest k) < 0 ->
  KLSize (Source (step k o)) < 0 /\ KLSize (Dest (step k o)) < 0.
Proof.
  intros Ho [Hs Hd]. destruct o; simpl in *; try (split; assumption); try discriminate.
  unfold SetSource. simpl. destruct (Valid (Dest k)); simpl; split; assumption.
Qed.

(** X15: a KL size that is unknown in both records stays unknown:
    [GetKLSize] is negative after every sequence of inline setters
    without [SetKLSize]. *)
Theorem KLSize_stays_unknown k ops :
  KLSize (Source k) < 0 -> KLSize (Dest k) < 0 ->
  Forall (fun o => is_SetKLSize o = false) ops ->
  GetKLSize (run k ops) < 0.
Proof.
  intros Hs Hd Hops.
  assert (H : KLSize (Source (run k ops)) < 0 /\ KLSize (Dest (run k ops)) < 0).
  { revert k Hs Hd. induction Hops as [| o ops Ho Hops IH]; intros k Hs Hd.
    - split; assumption.
    - rewrite run_cons.
      destruct (step_KLSize_unknown k o Ho (conj Hs Hd)) as [Hs' Hd'].
      now apply IH. }
  destruct H as [Hs' Hd']. unfold GetKLSize.
  destruct (Z.geb_spec (KLSize (Source (run k ops))) 0); lia.
Qed.

Lemma KLSize_stays_unknown_witness :
  GetKLSize (run four_bytes
               [OpSetSource (mkFile "in.mxf" 0) (-1); OpSetLength 9;
                OpSetDestination (mkFile "out.mxf" 0) 64]) < 0.
Proof.
  apply (KLSize_stays_unknown four_bytes
           [OpSetSource (mkFile "in.mxf" 0) (-1); OpSetLength 9;
            OpSetDestination (mkFile "out.mxf" 0) 64]);
    [reflexivity | reflexivity | repeat constructor].
Defined.

End KLVMoreFacts.
